(** * The tool-calling notebook (3-tool.ipynb) as Rocq definitions

    The notebook registers two [@tool] functions, builds [tool_map] from the
    list [tools] inside [tool_chain], picks the tool named by the parsed model
    output and pipes the output's ['arguments'] entry into it.  The Python
    objects that flow through that chain are modelled below: parsed JSON as
    [value], exceptions as [exc], dictionaries as stdpp finite maps. *)

From Stdlib Require Import ZArith Ascii String List Lia DecimalString DecimalZ.
From stdpp Require Import gmap strings list fin_maps.

Set Warnings "-register-all".
#[local] Open Scope string_scope.

(** ** Python values and exceptions *)

(** What [JsonOutputParser] hands to the next stage: [None], booleans,
    integers, strings, lists and dictionaries keyed by strings.  Floating
    point numbers are left out of the model. *)
Inductive value :=
| PNone
| PBool (b : bool)
| PInt (z : Z)
| PStr (s : string)
| PList (l : list value)
| PDict (d : gmap string value).

(** The exceptions the chain can raise.  [KeyError] carries the key that
    was looked up, [ValidationError] the list of (location, message) pairs
    reported by a tool's argument schema.  [Unmodelled] is no exception of
    Python: it stands for an outcome of the library that these definitions
    do not represent, and says which. *)
Inductive exc :=
| KeyError (key : value)
| TypeError (msg : string)
| AttributeError (msg : string)
| AssertionError (msg : string)
| NameError (var : string)
| StopIteration
| ValidationError (errors : list (string * string))
| Unmodelled (what : string).

Inductive result (A : Type) :=
| Ok (a : A)
| Raise (e : exc).
Arguments Ok {A} a.
Arguments Raise {A} e.

(** One execution of a tool's Python function: which tool, and the keyword
    arguments its body ran with. *)
Record call := Call { callee : string; kwargs : gmap string value }.

(** Computations that may run tool bodies and may raise: the calls made so
    far, and the outcome. *)
Definition M (A : Type) : Type := (list call * result A)%type.

Definition ret {A} (a : A) : M A := ([], Ok a).
Definition raise {A} (e : exc) : M A := ([], Raise e).
Definition tell (c : call) : M unit := ([c], Ok tt).
Definition lift {A} (r : result A) : M A := ([], r).
Definition bind {A B} (m : M A) (k : A -> M B) : M B :=
  match m with
  | (log, Raise e) => (log, Raise e)
  | (log, Ok a) => let '(log', r) := k a in ((log ++ log')%list, r)
  end.

Notation "'do' x <- m ; k" := (bind m (fun x => k))
  (at level 10, x name, m at level 100, k at level 200).

Definition calls {A} (m : M A) : list call := fst m.
Definition outcome {A} (m : M A) : result A := snd m.

(** [obj[key]] for a string key.  Only a dictionary can be indexed by a
    string; every other object raises [TypeError]. *)
Definition getitem (obj : value) (key : string) : result value :=
  match obj with
  | PDict d =>
      match d !! key with
      | Some v => Ok v
      | None => Raise (KeyError (PStr key))
      end
  | PList _ => Raise (TypeError "list indices must be integers or slices, not str")
  | PStr _ => Raise (TypeError "string indices must be integers, not 'str'")
  | PNone => Raise (TypeError "'NoneType' object is not subscriptable")
  | PBool _ => Raise (TypeError "'bool' object is not subscriptable")
  | PInt _ => Raise (TypeError "'int' object is not subscriptable")
  end.

(** ** Tools *)

(** [type(v).__name__] *)
Definition type_name (v : value) : string :=
  match v with
  | PNone => "NoneType"
  | PBool _ => "bool"
  | PInt _ => "int"
  | PStr _ => "str"
  | PList _ => "list"
  | PDict _ => "dict"
  end.

(** One parameter of a tool: its name, its annotation as written in the
    [def] if it has one, and the check the argument schema applies to a
    supplied value (the coerced value, or the message of the validation
    error).  A parameter has no default value, as in the notebook. *)
Record field := Field {
  fname : string;
  annot : option string;
  validator : value -> string + value
}.

(** What [@tool] makes of a function: the function's name, its docstring,
    its signature (the parameters and the annotation of the result, if
    there is one), and its body run on the local variables bound by the
    call.  Every tool of the notebook is made this way; a tool object
    without a function of its own has no place in this type. *)
Record tool := Tool {
  name : string;
  description : string;
  args : list field;
  returns : option string;
  func : gmap string value -> result value
}.

(** [str(z)] for an integer. *)
Definition str_of_int (z : Z) : string := NilZero.string_of_int (Z.to_int z).

(** The check of a parameter annotated [str] (the notebooks import
    [langchain_core.pydantic_v1]): a string is kept, a number or a boolean
    is replaced by its [str()], anything else is refused. *)
Definition str_validator (v : value) : string + value :=
  match v with
  | PStr s => inr (PStr s)
  | PInt z => inr (PStr (str_of_int z))
  | PBool true => inr (PStr "True")
  | PBool false => inr (PStr "False")
  | PNone => inl "none is not an allowed value"
  | PList _ | PDict _ => inl "str type expected"
  end.

Definition str_field (x : string) : field :=
  {| fname := x; annot := Some "str"; validator := str_validator |}.

(** A parameter without an annotation: any value is taken as it is. *)
Definition any_field (x : string) : field :=
  {| fname := x; annot := None; validator := inr |}.

(** A local variable of a running function body. *)
Definition local (env : gmap string value) (x : string) : result value :=
  match env !! x with
  | Some v => Ok v
  | None => Raise (NameError x)
  end.

(** [f'{v}...'] for the values a [str] parameter can hold. *)
Definition fstring1 (v : value) (suffix : string) : result value :=
  match v with
  | PStr s => Ok (PStr (s +:+ suffix))
  | _ => Raise (TypeError "str expected")
  end.

(** [[
@tool
def negative_comment(game: str) -> str:
  '''Give negative comment to this game.'''
  return f'{game} seems not better than Genshin Impact...'
]] *)
Definition negative_comment : tool :=
  {| name := "negative_comment";
     description := "Give negative comment to this game.";
     args := [str_field "game"];
     returns := Some "str";
     func := fun env =>
       match local env "game" with
       | Ok game => fstring1 game " seems not better than Genshin Impact..."
       | Raise e => Raise e
       end |}.

(** [[
@tool
def positive_comment(game: str) -> str:
  '''Give positive comment to this game.'''
  return f'{game} is the best game in the world !!!'
]] *)
Definition positive_comment : tool :=
  {| name := "positive_comment";
     description := "Give positive comment to this game.";
     args := [str_field "game"];
     returns := Some "str";
     func := fun env =>
       match local env "game" with
       | Ok game => fstring1 game " is the best game in the world !!!"
       | Raise e => Raise e
       end |}.

(** [tools = [negative_comment, positive_comment]] *)
Definition tools : list tool := [negative_comment; positive_comment].

(** ** Invoking a tool

    The decorator [@tool] and the method [invoke] belong to the library
    ([langchain_core.tools]); the notebook only uses them.  Their behaviour
    on what the chain can hand to a tool is written out here: the decorator
    derives an argument schema from the signature of the function, [invoke]
    checks its input against that schema and then calls the function. *)

(** The argument schema applied to a dictionary: every parameter is required
    (none of the notebook's functions has a default); a supplied value goes
    through the parameter's check.  Yields the errors in signature order and
    the checked values.  Keys of the dictionary that are not parameters are
    not looked at. *)
Fixpoint validate (schema : list field) (d : gmap string value)
  : list (string * string) * gmap string value :=
  match schema with
  | [] => ([], ∅)
  | f :: rest =>
      let '(errs, vals) := validate rest d in
      match d !! fname f with
      | None => ((fname f, "field required") :: errs, vals)
      | Some v =>
          match validator f v with
          | inl msg => ((fname f, msg) :: errs, vals)
          | inr v' => (errs, <[fname f := v']> vals)
          end
      end
  end.

(** [args_schema.parse_obj(d)] for a dictionary [d], and what the library
    keeps of the result: the checked values of the keys that [d] supplied,
    as keyword arguments. *)
Definition parse_obj (t : tool) (d : gmap string value)
  : result (list value * gmap string value) :=
  match validate (args t) d with
  | ([], vals) => Ok ([], filter (λ kv, is_Some (d !! kv.1)) vals)
  | (errs, _) => Raise (ValidationError errs)
  end.

(** The tool's input turned into positional and keyword arguments for its
    function.  A bare string is checked as the value of the first parameter
    and passed on as the only positional argument
    ([negative_comment.invoke('Zelda')]); a dictionary is checked against
    the schema ([args_schema.parse_obj(tool_input)], which requires the
    declared fields and ignores other keys).  For anything else [parse_obj]
    tries [dict(tool_input)] first: the empty list gives the empty
    dictionary; [None], a boolean and a number are refused at the root of
    the schema; what [dict()] makes of a list with elements is not
    represented. *)
Definition parse_input (t : tool) (tool_input : value)
  : result (list value * gmap string value) :=
  match tool_input with
  | PStr s =>
      match args t with
      | [] => Raise StopIteration
      | f :: _ =>
          match validate (args t) {[fname f := PStr s]} with
          | ([], _) => Ok ([PStr s], ∅)
          | (errs, _) => Raise (ValidationError errs)
          end
      end
  | PDict d => parse_obj t d
  | PList [] => parse_obj t ∅
  | PList (_ :: _) => Raise (Unmodelled "dict() of a list with elements")
  | _ =>
      Raise (ValidationError
               [("__root__",
                 name t +:+ "Schema expected dict not " +:+ type_name tool_input)])
  end.

(** Python's binding of the positional arguments [pos] and the keyword
    arguments [kw] of a call to the parameters of [def f(p1, ..., pn)]. *)
Definition bind_args (params : list string) (pos : list value)
    (kw : gmap string value) : result (gmap string value) :=
  if decide (length params < length pos)%nat then
    Raise (TypeError "too many positional arguments")
  else
    let bound : gmap string value := list_to_map (zip params pos) in
    if decide (map_Forall (λ k _, k ∈ params) kw) then
      if decide (map_Forall (λ k _, bound !! k = None) kw) then
        let env := kw ∪ bound in
        match filter (λ p, env !! p = None) params with
        | [] => Ok env
        | p :: _ =>
            Raise (TypeError ("missing required positional argument: '" +:+ p +:+ "'"))
        end
      else Raise (TypeError "got multiple values for argument")
    else Raise (TypeError "got an unexpected keyword argument").

(** Running the function of a tool on bound arguments; the run is logged. *)
Definition run_func (t : tool) (pos : list value) (kw : gmap string value)
  : M value :=
  do env <- lift (bind_args (fname <$> args t) pos kw);
  do _ <- tell (Call (name t) env);
  lift (func t env).

(** [t.run(tool_input)]: the input is parsed and the function called. *)
Definition run (t : tool) (tool_input : value) : M value :=
  do a <- lift (parse_input t tool_input);
  run_func t a.1 a.2.

(** The library reads a dictionary whose ['type'] entry is the string
    ['tool_call'] as a tool call, whatever else it holds. *)
Definition is_tool_call (input : value) : bool :=
  match input with
  | PDict d =>
      match d !! "type" with
      | Some (PStr s) => String.eqb s "tool_call"
      | _ => false
      end
  | _ => false
  end.

(** [a.copy()], which dictionaries and lists have. *)
Definition copy (a : value) : result value :=
  match a with
  | PDict _ | PList _ => Ok a
  | _ =>
      Raise (AttributeError
               ("'" +:+ type_name a +:+ "' object has no attribute 'copy'"))
  end.

(** What a run on behalf of a tool call returns: the output itself when the
    call has no identifier; with an identifier the library wraps the output
    in a message object, which is not represented. *)
Definition format_output (out tool_call_id : value) : M value :=
  match tool_call_id with
  | PNone => ret out
  | _ => raise (Unmodelled "ToolMessage")
  end.

(** [t.invoke(tool_input)].  A tool call is taken apart first: its ['id']
    and its ['args'] are read, and the tool runs on a copy of the latter.
    Any other input is what the tool runs on. *)
Definition invoke (t : tool) (tool_input : value) : M value :=
  if is_tool_call tool_input then
    do tool_call_id <- lift (getitem tool_input "id");
    do a <- lift (getitem tool_input "args");
    do input <- lift (copy a);
    do out <- run t input;
    format_output out tool_call_id
  else run t tool_input.

(** ** The chain *)

(** The pieces a chain is made of in the notebook: [itemgetter(key)], a
    tool, and [first | second]. *)
Inductive runnable :=
| RItemGetter (key : string)
| RTool (t : tool)
| RPipe (first second : runnable).

Fixpoint invoke_runnable (r : runnable) (input : value) : M value :=
  match r with
  | RItemGetter key => lift (getitem input key)
  | RTool t => invoke t input
  | RPipe first second =>
      do x <- invoke_runnable first input;
      invoke_runnable second x
  end.

(** [{tool.name: tool for tool in tools}]: the tools are entered one after
    the other, a later one replacing an earlier one of the same name. *)
Definition register (tool_map : gmap string tool) (t : tool)
  : gmap string tool :=
  <[name t := t]> tool_map.

Definition tool_map_of (tools : list tool) : gmap string tool :=
  foldl register ∅ tools.

(** [tool_map[key]]: a string is looked up, a list or a dictionary cannot be
    hashed, any other object is hashable but is no key of the map. *)
Definition tool_map_getitem (tool_map : gmap string tool) (key : value)
  : result tool :=
  match key with
  | PStr n =>
      match tool_map !! n with
      | Some t => Ok t
      | None => Raise (KeyError key)
      end
  | PList _ => Raise (TypeError "unhashable type: 'list'")
  | PDict _ => Raise (TypeError "unhashable type: 'dict'")
  | _ => Raise (KeyError key)
  end.

(** [[
def tool_chain(model_output):
    tool_map = {tool.name: tool for tool in tools}
    chosen_tool = tool_map[model_output['name']]
    return itemgetter('arguments') | chosen_tool
]]
    The global [tools] is a parameter here. *)
Definition tool_chain (tools : list tool) (model_output : value)
  : result runnable :=
  let tool_map := tool_map_of tools in
  match getitem model_output "name" with
  | Raise e => Raise e
  | Ok n =>
      match tool_map_getitem tool_map n with
      | Raise e => Raise e
      | Ok chosen_tool => Ok (RPipe (RItemGetter "arguments") (RTool chosen_tool))
      end
  end.

(** A function used as a chain step ([... | JsonOutputParser() | tool_chain]):
    it is called on the step's input, and since it returns a runnable, that
    runnable is invoked on the same input. *)
Definition invoke_lambda (f : value -> result runnable) (input : value)
  : M value :=
  do r <- lift (f input);
  invoke_runnable r input.

(** [RunnablePassthrough.assign(output=f)]: the input must be a dictionary;
    the result is the input with the key ['output'] set to what [f] gives. *)
Definition assign_output (f : value -> result runnable) (input : value)
  : M value :=
  match input with
  | PDict d =>
      do out <- invoke_lambda f input;
      ret (PDict (<["output" := out]> d))
  | _ =>
      raise (AssertionError "The input to RunnablePassthrough.assign() must be a dict.")
  end.

(** The shape of a parsed model output, as the notebook records it:
    [{'name': 'negative_comment', 'arguments': {'game': 'Zelda'}}]. *)
Definition decision (n : string) (arguments : value) : value :=
  PDict (<["name" := PStr n]> (<["arguments" := arguments]> ∅)).

(** A second function registered under a name that is already taken: the
    positive comment, named [negative_comment]. *)
Definition renamed_positive_comment : tool :=
  {| name := "negative_comment";
     description := description positive_comment;
     args := args positive_comment;
     returns := returns positive_comment;
     func := func positive_comment |}.

(** An example beside the notebook's tools, to see in which order
    arguments are bound: a function of two parameters.
    [[
@tool
def versus_comment(game: str, rival: str) -> str:
  '''Compare two games.'''
  return f'{game} is better than {rival}'
]] *)
Definition versus_comment : tool :=
  {| name := "versus_comment";
     description := "Compare two games.";
     args := [str_field "game"; str_field "rival"];
     returns := Some "str";
     func := fun env =>
       match local env "game", local env "rival" with
       | Ok (PStr game), Ok (PStr rival) =>
           Ok (PStr (game +:+ " is better than " +:+ rival))
       | Ok (PStr _), Ok _ => Raise (TypeError "str expected")
       | Ok (PStr _), Raise e => Raise e
       | Ok _, _ => Raise (TypeError "str expected")
       | Raise e, _ => Raise e
       end |}.

(** ** Rendering the tools for the prompt *)

Definition newline : string := String "010" "".

(** One parameter in a signature: [game: str], or the name alone when the
    parameter has no annotation. *)
Definition param_str (f : field) : string :=
  match annot f with
  | Some a => fname f +:+ ": " +:+ a
  | None => fname f
  end.

(** The annotation of the result in a signature, if there is one. *)
Definition returns_str (t : tool) : string :=
  match returns t with
  | Some r => " -> " +:+ r
  | None => ""
  end.

(** [str(signature(tool.func))], as in [(game: str) -> str]. *)
Definition signature_str (t : tool) : string :=
  "(" +:+ String.concat ", " (param_str <$> args t) +:+ ")" +:+ returns_str t.

(** The line of one tool. *)
Definition tool_line (t : tool) : string :=
  name t +:+ signature_str t +:+ " - " +:+ description t.

(** [render_text_description(tools)] is imported from the library; the
    notebook records its result for [[negative_comment]]:
    ['negative_comment(game: str) -> str - Give negative comment to this game.'].
    Each tool gives its name, the signature of its function, a dash and its
    description, and the lines are joined by newlines. *)
Definition render_text_description (tools : list tool) : string :=
  String.concat newline (tool_line <$> tools).

(** The line the specification describes for a tool:
    [name(param1: type1, ...) -> description]. *)
Definition spec_tool_line (t : tool) : string :=
  name t +:+ "(" +:+ String.concat ", " (param_str <$> args t)
    +:+ ") -> " +:+ description t.

Definition spec_render (tools : list tool) : string :=
  String.concat newline (spec_tool_line <$> tools).

(** [s.split(c)] for a one-character separator. *)
Fixpoint split_on (c : ascii) (s : string) : list string :=
  match s with
  | EmptyString => [EmptyString]
  | String a s' =>
      if Ascii.eqb a c then EmptyString :: split_on c s'
      else
        match split_on c s' with
        | [] => [String a EmptyString]
        | w :: ws => String a w :: ws
        end
  end.

(** The characters of a string. *)
Fixpoint chars (s : string) : list ascii :=
  match s with
  | EmptyString => []
  | String a s' => a :: chars s'
  end.

(** ** The decision parser

    The notebook parses the model's reply with the library's
    [JsonOutputParser], whose code is not part of it.  The parser below
    follows the contract the specification gives for [parse]; the writer
    [stringify] is its counterpart. *)

(** JSON values.  A number is kept exactly, as the decimal [m * 10 ^ e];
    no rounding to a machine number takes place.  A string is its UTF-8
    text, one [ascii] for each byte. *)
Inductive json :=
| JNull
| JBool (b : bool)
| JNum (m e : Z)
| JStr (s : string)
| JArr (l : list json)
| JObj (o : gmap string json).

(** A decision: the name of the chosen tool and its arguments. *)
Record Decision := { toolName : string; arguments : gmap string json }.

Inductive parse_error :=
| MalformedDecisionError
| InvalidArgumentShapeError.

(** The one way in which a number is kept: the exponent is not positive,
    and it is negative only when the mantissa does not end in a zero.  So
    50 is [JNum 50 0], 1.5 is [JNum 15 (-1)] and 0.0 is [JNum 0 0]. *)
Definition canonical (m e : Z) : Prop :=
  (e <= 0)%Z /\ ((e < 0)%Z -> (m mod 10)%Z <> 0%Z).

(** Zeros at the end of the mantissa are traded for the exponent, as long
    as the exponent is negative. *)
Fixpoint normalise (fuel : nat) (m e : Z) : Z * Z :=
  match fuel with
  | O => (m, e)
  | S fuel' =>
      if (e <? 0)%Z && (m mod 10 =? 0)%Z
      then normalise fuel' (m / 10)%Z (e + 1)%Z
      else (m, e)
  end.

(** The number [m * 10 ^ e], for any [m] and [e]. *)
Definition number (m e : Z) : json :=
  if (0 <=? e)%Z then JNum (m * 10 ^ e) 0
  else let '(m', e') := normalise (Z.to_nat (- e)) m e in JNum m' e'.

Definition dquote : ascii := "034".
Definition backslash : ascii := "092".

Definition is_ws (c : ascii) : bool :=
  Ascii.eqb c " " || Ascii.eqb c "009" || Ascii.eqb c "010" || Ascii.eqb c "013".

Fixpoint skip_ws (s : string) : string :=
  match s with
  | String c rest => if is_ws c then skip_ws rest else s
  | EmptyString => EmptyString
  end.

Definition is_digit (c : ascii) : bool :=
  (48 <=? nat_of_ascii c)%nat && (nat_of_ascii c <=? 57)%nat.

Definition hex_digit (n : N) : ascii :=
  match n with
  | 0 => "0" | 1 => "1" | 2 => "2" | 3 => "3" | 4 => "4" | 5 => "5"
  | 6 => "6" | 7 => "7" | 8 => "8" | 9 => "9" | 10 => "a" | 11 => "b"
  | 12 => "c" | 13 => "d" | 14 => "e" | _ => "f"
  end%N%char.

Definition hex_value (c : ascii) : option N :=
  let n := N_of_ascii c in
  if (48 <=? n)%N && (n <=? 57)%N then Some (n - 48)%N
  else if (97 <=? n)%N && (n <=? 102)%N then Some (n - 87)%N
  else if (65 <=? n)%N && (n <=? 70)%N then Some (n - 55)%N
  else None.

Definition hex4 (a b c d : ascii) : option N :=
  match hex_value a, hex_value b, hex_value c, hex_value d with
  | Some x, Some y, Some z, Some w => Some (((x * 16 + y) * 16 + z) * 16 + w)%N
  | _, _, _, _ => None
  end.

(** The UTF-8 bytes of a code point. *)
Definition utf8 (n : N) : string :=
  let byte (k : N) := ascii_of_N k in
  if (n <? 128)%N then String (byte n) ""
  else if (n <? 2048)%N then
    String (byte (192 + n / 64)%N) (String (byte (128 + n mod 64)%N) "")
  else if (n <? 65536)%N then
    String (byte (224 + n / 4096)%N)
      (String (byte (128 + (n / 64) mod 64)%N)
         (String (byte (128 + n mod 64)%N) ""))
  else
    String (byte (240 + n / 262144)%N)
      (String (byte (128 + (n / 4096) mod 64)%N)
         (String (byte (128 + (n / 64) mod 64)%N)
            (String (byte (128 + n mod 64)%N) ""))).

(** The two halves of a code point beyond the first 65536, and the code
    point they stand for. *)
Definition high_surrogate (n : N) : bool := (55296 <=? n)%N && (n <=? 56319)%N.
Definition low_surrogate (n : N) : bool := (56320 <=? n)%N && (n <=? 57343)%N.
Definition surrogate_pair (hi lo : N) : N :=
  (65536 + (hi - 55296) * 1024 + (lo - 56320))%N.

(** *** Writing JSON text

    Every writer puts its text in front of the text [out] that follows. *)

(** One byte of a string: the quote and the backslash are escaped, the
    usual control characters have their short escapes and the other ones
    are written as [\u00XX]; every other byte stands for itself. *)
Definition write_char (c : ascii) (out : string) : string :=
  let n := N_of_ascii c in
  if Ascii.eqb c dquote then String backslash (String dquote out)
  else if Ascii.eqb c backslash then String backslash (String backslash out)
  else if Ascii.eqb c "010" then String backslash (String "n" out)
  else if Ascii.eqb c "013" then String backslash (String "r" out)
  else if Ascii.eqb c "009" then String backslash (String "t" out)
  else if Ascii.eqb c "008" then String backslash (String "b" out)
  else if Ascii.eqb c "012" then String backslash (String "f" out)
  else if (32 <=? n)%N then String c out
  else String backslash (String "u" (String "0" (String "0"
         (String (hex_digit (n / 16)) (String (hex_digit (n mod 16)) out))))).

Fixpoint write_chars (s : string) (out : string) : string :=
  match s with
  | EmptyString => String dquote out
  | String c s' => write_char c (write_chars s' out)
  end.

Definition write_string (s : string) (out : string) : string :=
  String dquote (write_chars s out).

(** A number: the mantissa, and the exponent after an [e] when it is not
    zero, as in [15e-1]. *)
Definition write_number (m e : Z) (out : string) : string :=
  if (e =? 0)%Z then str_of_int m +:+ out
  else str_of_int m +:+ String "e" (str_of_int e +:+ out).

(** The members of an object or the elements of a list, separated by a
    comma and a space. *)
Fixpoint write_sep (items : list (string -> string)) (out : string) : string :=
  match items with
  | [] => out
  | [w] => w out
  | w :: rest => w (String "," (String " " (write_sep rest out)))
  end.

Definition write_member (k : string) (w : string -> string) (out : string)
  : string :=
  write_string k (String ":" (String " " (w out))).

Fixpoint write_value (v : json) (out : string) : string :=
  match v with
  | JNull => "null" +:+ out
  | JBool true => "true" +:+ out
  | JBool false => "false" +:+ out
  | JNum m e => write_number m e out
  | JStr s => write_string s out
  | JArr l => String "[" (write_sep (write_value <$> l) (String "]" out))
  | JObj o =>
      String "{"
        (write_sep ((λ kw, write_member kw.1 kw.2) <$> map_to_list (write_value <$> o))
           (String "}" out))
  end.

(** Modelled from the spec: the JSON text of a decision, which the notebooks
    never write.  It is the object with the keys [name] and [arguments], as
    the notebook records a parsed model output, put in front of [out]. *)
Definition write_decision (d : Decision) (out : string) : string :=
  String "{"
    (write_member "name" (write_string (toolName d))
       (String "," (String " "
          (write_member "arguments" (write_value (JObj (arguments d)))
             (String "}" out))))).

(** Modelled from the spec: the serialization [stringify] of a decision,
    which the notebooks do not contain.  It is the JSON object of the
    decision and nothing else. *)
Definition stringify (d : Decision) : string := write_decision d "".

(** The values that are no containers: [null], the booleans, the numbers
    (each kept in its one way) and the strings. *)
Definition primitive (v : json) : Prop :=
  match v with
  | JArr _ | JObj _ => False
  | JNum m e => canonical m e
  | _ => True
  end.

(** *** Reading JSON text *)

(** The bytes of a string literal, after its opening quote, up to the
    closing quote; what follows the literal is returned with them.  An
    escape [\uXXXX] gives the UTF-8 bytes of its code point, two such
    escapes that are the halves of one code point give the bytes of that
    code point. *)
Fixpoint parse_chars (s : string) : option (string * string) :=
  let cons_char c r :=
    match r with
    | Some (str, rest) => Some (String c str, rest)
    | None => None
    end in
  let cons_str p r :=
    match r with
    | Some (str, rest) => Some (p +:+ str, rest)
    | None => None
    end in
  match s with
  | EmptyString => None
  | String c rest =>
      if Ascii.eqb c dquote then Some (EmptyString, rest)
      else if Ascii.eqb c backslash then
        match rest with
        | EmptyString => None
        | String e rest' =>
            if Ascii.eqb e dquote then cons_char dquote (parse_chars rest')
            else if Ascii.eqb e backslash then cons_char backslash (parse_chars rest')
            else if Ascii.eqb e "/" then cons_char "/"%char (parse_chars rest')
            else if Ascii.eqb e "n" then cons_char "010"%char (parse_chars rest')
            else if Ascii.eqb e "r" then cons_char "013"%char (parse_chars rest')
            else if Ascii.eqb e "t" then cons_char "009"%char (parse_chars rest')
            else if Ascii.eqb e "b" then cons_char "008"%char (parse_chars rest')
            else if Ascii.eqb e "f" then cons_char "012"%char (parse_chars rest')
            else if Ascii.eqb e "u" then
              match rest' with
              | String h1 (String h2 (String h3 (String h4 rest''))) =>
                  match hex4 h1 h2 h3 h4 with
                  | Some n =>
                      if high_surrogate n then
                        match rest'' with
                        | String b (String u (String l1 (String l2 (String l3
                            (String l4 rest3))))) =>
                            match hex4 l1 l2 l3 l4 with
                            | Some lo =>
                                if Ascii.eqb b backslash && Ascii.eqb u "u"
                                   && low_surrogate lo
                                then cons_str (utf8 (surrogate_pair n lo))
                                       (parse_chars rest3)
                                else cons_str (utf8 n) (parse_chars rest'')
                            | None => cons_str (utf8 n) (parse_chars rest'')
                            end
                        | _ => cons_str (utf8 n) (parse_chars rest'')
                        end
                      else cons_str (utf8 n) (parse_chars rest'')
                  | None => None
                  end
              | _ => None
              end
            else None
        end
      else if (N_of_ascii c <? 32)%N then None
      else cons_char c (parse_chars rest)
  end.

Fixpoint strip_prefix (p s : string) : option string :=
  match p with
  | EmptyString => Some s
  | String a p' =>
      match s with
      | String b s' => if Ascii.eqb a b then strip_prefix p' s' else None
      | EmptyString => None
      end
  end.

(** The longest run of digits at the front of a text, and the rest. *)
Fixpoint span_digits (s : string) : string * string :=
  match s with
  | String c rest =>
      if is_digit c then
        let '(ds, rest') := span_digits rest in (String c ds, rest')
      else (EmptyString, s)
  | EmptyString => (EmptyString, EmptyString)
  end.

Definition leading_zero (ds : string) : bool :=
  match ds with
  | String c (String _ _) => Ascii.eqb c "0"
  | _ => false
  end.

(** A text that does not go on with a digit. *)
Definition stops_digits (out : string) : bool :=
  match out with
  | String c _ => negb (is_digit c)
  | EmptyString => true
  end.

(** The minus sign of a number, if it has one. *)
Definition parse_sign (s : string) : bool * string :=
  match s with
  | String c rest => if Ascii.eqb c "-" then (true, rest) else (false, s)
  | EmptyString => (false, s)
  end.

(** The digits of the fraction of a number, if it has one: a point is
    followed by at least one digit. *)
Definition parse_fraction (s : string) : option (string * string) :=
  match s with
  | String c rest =>
      if Ascii.eqb c "." then
        match span_digits rest with
        | (EmptyString, _) => None
        | (fs, rest') => Some (fs, rest')
        end
      else Some (EmptyString, s)
  | EmptyString => Some (EmptyString, s)
  end.

(** The exponent of a number, if it has one: [e] or [E], a sign or none,
    and at least one digit. *)
Definition parse_exponent (s : string) : option (Z * string) :=
  match s with
  | String c rest =>
      if Ascii.eqb c "e" || Ascii.eqb c "E" then
        let '(negative, body) :=
          match rest with
          | String sign rest' =>
              if Ascii.eqb sign "-" then (true, rest')
              else if Ascii.eqb sign "+" then (false, rest')
              else (false, rest)
          | EmptyString => (false, rest)
          end in
        match span_digits body with
        | (EmptyString, _) => None
        | (ds, rest') =>
            match NilEmpty.uint_of_string ds with
            | Some u =>
                Some (if negative then (- Z.of_uint u)%Z else Z.of_uint u, rest')
            | None => None
            end
        end
      else Some (0%Z, s)
  | EmptyString => Some (0%Z, s)
  end.

(** What may follow a written number: no digit, no point and no exponent. *)
Definition ends_number (out : string) : bool :=
  match out with
  | String c _ =>
      negb (is_digit c) && negb (Ascii.eqb c "." || Ascii.eqb c "e" || Ascii.eqb c "E")
  | EmptyString => true
  end.

(** A number: an optional minus sign, digits without a leading zero, an
    optional fraction and an optional exponent. *)
Definition parse_number (s : string) : option (json * string) :=
  let '(negative, body) := parse_sign s in
  let '(ds, rest) := span_digits body in
  match ds with
  | EmptyString => None
  | String _ _ =>
      if leading_zero ds then None
      else
        match parse_fraction rest with
        | Some (fs, rest1) =>
            match parse_exponent rest1 with
            | Some (x, rest2) =>
                match NilEmpty.uint_of_string (ds +:+ fs) with
                | Some u =>
                    Some (number (if negative then - Z.of_uint u else Z.of_uint u)%Z
                            (x - Z.of_nat (String.length fs))%Z,
                          rest2)
                | None => None
                end
            | None => None
            end
        | None => None
        end
  end.

Definition parse_atom (s : string) : option (json * string) :=
  match strip_prefix "null" s with
  | Some rest => Some (JNull, rest)
  | None =>
      match strip_prefix "true" s with
      | Some rest => Some (JBool true, rest)
      | None =>
          match strip_prefix "false" s with
          | Some rest => Some (JBool false, rest)
          | None => parse_number s
          end
      end
  end.

(** One value, given the readers of the members of an object and of the
    elements of a list. *)
Definition value_step
    (members : string -> gmap string json -> option (gmap string json * string))
    (elements : string -> option (list json * string))
    (s : string) : option (json * string) :=
  match skip_ws s with
  | EmptyString => None
  | String c rest =>
      if Ascii.eqb c "{" then
        match skip_ws rest with
        | String c' rest' =>
            if Ascii.eqb c' "}" then Some (JObj ∅, rest')
            else
              match members rest ∅ with
              | Some (m, rest'') => Some (JObj m, rest'')
              | None => None
              end
        | EmptyString => None
        end
      else if Ascii.eqb c "[" then
        match skip_ws rest with
        | String c' rest' =>
            if Ascii.eqb c' "]" then Some (JArr [], rest')
            else
              match elements rest with
              | Some (l, rest'') => Some (JArr l, rest'')
              | None => None
              end
        | EmptyString => None
        end
      else if Ascii.eqb c dquote then
        match parse_chars rest with
        | Some (str, rest') => Some (JStr str, rest')
        | None => None
        end
      else parse_atom (String c rest)
  end.

(** The members of an object from its first key on, up to the closing
    brace.  A key that occurs again replaces the earlier entry. *)
Definition members_step
    (read_value : string -> option (json * string))
    (members : string -> gmap string json -> option (gmap string json * string))
    (s : string) (acc : gmap string json)
  : option (gmap string json * string) :=
  match skip_ws s with
  | String q rest =>
      if Ascii.eqb q dquote then
        match parse_chars rest with
        | Some (k, rest1) =>
            match skip_ws rest1 with
            | String colon rest2 =>
                if Ascii.eqb colon ":" then
                  match read_value rest2 with
                  | Some (v, rest3) =>
                      match skip_ws rest3 with
                      | String c rest4 =>
                          if Ascii.eqb c "," then members rest4 (<[k := v]> acc)
                          else if Ascii.eqb c "}" then Some (<[k := v]> acc, rest4)
                          else None
                      | EmptyString => None
                      end
                  | None => None
                  end
                else None
            | EmptyString => None
            end
        | None => None
        end
      else None
  | EmptyString => None
  end.

(** The elements of a list from its first element on, up to the closing
    bracket. *)
Definition elements_step
    (read_value : string -> option (json * string))
    (elements : string -> option (list json * string))
    (s : string) : option (list json * string) :=
  match read_value s with
  | Some (v, rest) =>
      match skip_ws rest with
      | String c rest' =>
          if Ascii.eqb c "," then
            match elements rest' with
            | Some (l, rest'') => Some (v :: l, rest'')
            | None => None
            end
          else if Ascii.eqb c "]" then Some ([v], rest')
          else None
      | EmptyString => None
      end
  | None => None
  end.

(** The reader of a value.  Each nested call takes one unit of [fuel]; a
    text needs no more units than it has characters. *)
Fixpoint parse_value (fuel : nat) (s : string) {struct fuel}
  : option (json * string) :=
  match fuel with
  | O => None
  | S fuel' => value_step (parse_members fuel') (parse_elements fuel') s
  end
with parse_members (fuel : nat) (s : string) (acc : gmap string json)
    {struct fuel} : option (gmap string json * string) :=
  match fuel with
  | O => None
  | S fuel' => members_step (parse_value fuel') (parse_members fuel') s acc
  end
with parse_elements (fuel : nat) (s : string) {struct fuel}
  : option (list json * string) :=
  match fuel with
  | O => None
  | S fuel' => elements_step (parse_value fuel') (parse_elements fuel') s
  end.

(** The text as a whole is one JSON object, white space around it apart. *)
Definition whole_object (fuel : nat) (raw : string)
  : option (gmap string json) :=
  match parse_value fuel raw with
  | Some (JObj m, rest) =>
      match skip_ws rest with
      | EmptyString => Some m
      | String _ _ => None
      end
  | _ => None
  end.

(** The first JSON object that can be read in a text: at every opening
    brace, from left to right, an object is tried. *)
Fixpoint first_object (fuel : nat) (s : string) : option (gmap string json) :=
  match s with
  | EmptyString => None
  | String c rest =>
      if Ascii.eqb c "{" then
        match parse_value fuel s with
        | Some (JObj m, _) => Some m
        | _ => first_object fuel rest
        end
      else first_object fuel rest
  end.

(** What follows the first fence of three backquotes, if there is one. *)
Fixpoint after_fence (s : string) : option string :=
  match s with
  | EmptyString => None
  | String a rest =>
      match rest with
      | String b (String c rest') =>
          if Ascii.eqb a "`" && Ascii.eqb b "`" && Ascii.eqb c "`" then Some rest'
          else after_fence rest
      | _ => None
      end
  end.

(** Modelled from the spec: how [parse] finds the JSON object in a raw model
    text.  The text itself when it is a JSON object, else the first object
    after the first fence, else the first object of the text. *)
Definition extract_object (raw : string) : option (gmap string json) :=
  let fuel := S (String.length raw) in
  match whole_object fuel raw with
  | Some m => Some m
  | None =>
      match after_fence raw with
      | Some body =>
          match first_object fuel body with
          | Some m => Some m
          | None => first_object fuel raw
          end
      | None => first_object fuel raw
      end
  end.

(** Modelled from the spec: the decision parser [parse], for which the
    notebooks call the library's [JsonOutputParser].  The raw text is a JSON
    object with the keys [name] (a string) and [arguments] (an object), or
    free text with such an object embedded, for instance in a fenced block.
    Without an object that has both keys the text is malformed; arguments
    that are no object are an invalid shape. *)
Definition parse (raw : string) : parse_error + Decision :=
  match extract_object raw with
  | None => inl MalformedDecisionError
  | Some obj =>
      match obj !! "name", obj !! "arguments" with
      | Some (JStr n), Some (JObj a) => inr {| toolName := n; arguments := a |}
      | Some (JStr _), Some _ => inl InvalidArgumentShapeError
      | _, _ => inl MalformedDecisionError
      end
  end.

(** The text [payload] is a JSON text of the object [obj]: the reader reads
    [obj] from it and stops at its end, whatever follows. *)
Definition json_text (payload : string) (obj : gmap string json) : Prop :=
  forall rest,
    parse_value (S (String.length payload)) (payload +:+ rest)
    = Some (JObj obj, rest).

(** The decisions whose arguments are primitive values. *)
Definition primitive_arguments (d : Decision) : Prop :=
  forall k v, arguments d !! k = Some v -> primitive v.

(** What may follow a written value inside an object. *)
Definition ends_value (out : string) : Prop :=
  exists rest, out = String "," rest \/ out = String "}" rest.

(** The entries of an object in the order in which they are written. *)
Definition entry_writers (entries : list (string * json))
  : list (string -> string) :=
  (λ kv, write_member kv.1 (write_value kv.2)) <$> entries.

Definition insert_entries (acc : gmap string json)
    (entries : list (string * json)) : gmap string json :=
  foldl (λ m kv, <[kv.1 := kv.2]> m) acc entries.

(** The object that the JSON text of a decision denotes. *)
Definition object_of (d : Decision) : gmap string json :=
  <["arguments" := JObj (arguments d)]> (<["name" := JStr (toolName d)]> ∅).

(** A writer that puts at least one character in front of what follows. *)
Definition grows (w : string -> string) : Prop :=
  forall out, (String.length out < String.length (w out))%nat.

(** A writer that does not look at what follows. *)
Definition continues (w : string -> string) : Prop :=
  forall a b, w a +:+ b = w (a +:+ b).


(** The raw model text of the fenced example: prose, a fence labelled
    [json], the object on a line of its own, and the closing fence. *)
Definition scenario_D_payload : string :=
  "{" +:+ String dquote "name" +:+ String dquote ": "
  +:+ String dquote "negative_comment" +:+ String dquote ", "
  +:+ String dquote "arguments" +:+ String dquote ": {"
  +:+ String dquote "game" +:+ String dquote ": "
  +:+ String dquote "DotA2" +:+ String dquote "}}".

Definition scenario_D_raw : string :=
  "Sure! ```json" +:+ newline +:+ scenario_D_payload +:+ newline +:+ "```".

Definition scenario_D_decision : Decision :=
  {| toolName := "negative_comment"; arguments := {["game" := JStr "DotA2"]} |}.

(** A longer reply: the prose quotes a decision for the other tool and a
    piece of code; the fenced object is spread over lines, has its keys in
    the other order and a key beside the two, and holds an escape, a
    fraction, an exponent and a list.
    [[
I first thought of {"name": "positive_comment", "arguments": {}} and
of `tools`, but this is it:
```json
{ "arguments" : {"game": "\u585e尔达", "score": 9.50,
                 "tags": ["rpg", 1e3, -0.25, true]},
  "name":"negative_comment", "note": null }
```
Anything else?
]] *)
Definition fenced_reply_prose : string :=
  "I first thought of {" +:+ String dquote "name" +:+ String dquote ": "
  +:+ String dquote "positive_comment" +:+ String dquote ", "
  +:+ String dquote "arguments" +:+ String dquote ": {}} and" +:+ newline
  +:+ "of `tools`, but this is it:" +:+ newline.

Definition fenced_reply_payload : string :=
  "{ " +:+ String dquote "arguments" +:+ String dquote " : {"
  +:+ String dquote "game" +:+ String dquote ": "
  +:+ String dquote "\u585e尔达" +:+ String dquote ", "
  +:+ String dquote "score" +:+ String dquote ": 9.50," +:+ newline
  +:+ "                 " +:+ String dquote "tags" +:+ String dquote ": ["
  +:+ String dquote "rpg" +:+ String dquote ", 1e3, -0.25, true]}," +:+ newline
  +:+ "  " +:+ String dquote "name" +:+ String dquote ":"
  +:+ String dquote "negative_comment" +:+ String dquote ", "
  +:+ String dquote "note" +:+ String dquote ": null }".

Definition fenced_reply_suffix : string :=
  newline +:+ "```" +:+ newline +:+ "Anything else?".



(** The Python object that [JsonOutputParser] makes of a JSON value, for
    the values the dispatch step is modelled on: a number without a
    fraction is an [int]; a number with a fraction would be a floating
    point number, which has no counterpart among them. *)
Fixpoint to_value (j : json) : option value :=
  match j with
  | JNull => Some PNone
  | JBool b => Some (PBool b)
  | JNum m e => if (e =? 0)%Z then Some (PInt m) else None
  | JStr s => Some (PStr s)
  | JArr l => PList <$> mapM to_value l
  | JObj o =>
      let o' := omap to_value o in
      if decide (size o' = size o) then Some (PDict o') else None
  end.

(** The parsed output that the dispatch step receives for a decision. *)
Definition model_output_of (d : Decision) : option value :=
  match to_value (JObj (arguments d)) with
  | Some a => Some (decision (toolName d) a)
  | None => None
  end.

(** The arguments that match a signature exactly: the keys are the
    parameter names, no more and no fewer, and each value is of its
    parameter's type (the check returns it as it is). *)
Definition matches (schema : list field) (d : gmap string value) : Prop :=
  (forall k, is_Some (d !! k) <-> k ∈ fname <$> schema) /\
  (forall f v, f ∈ schema -> d !! fname f = Some v -> validator f v = inr v).

(** The checked values listed in the order of the signature. *)
Definition ordered_values (schema : list field) (vals : gmap string value)
  : list value :=
  omap (λ f, vals !! fname f) schema.

(** Case analysis on the eight bits of a character. *)
Ltac ascii_cases c := destruct c as [[] [] [] [] [] [] [] []].

(** ** The system prompt *)

(** [[
system_prompt = f'''You are an assistant that has access to the following set of tools. Here are the names and descriptions for each tool:

{rendered_tools}

Given the user input, return the name and input of the tool to use. Return your response as a JSON blob with 'name' and 'arguments' keys.'''
]] *)
Definition system_prompt (rendered_tools : string) : string :=
  "You are an assistant that has access to the following set of tools. Here are the names and descriptions for each tool:"
  +:+ newline +:+ newline
  +:+ rendered_tools
  +:+ newline +:+ newline
  +:+ "Given the user input, return the name and input of the tool to use. Return your response as a JSON blob with 'name' and 'arguments' keys.".

(** [x in s] for strings: [x] occurs in [s]. *)
Definition occurs_in (x s : string) : Prop :=
  exists before after, s = before +:+ x +:+ after.

(** [itemgetter('arguments') | t], the chain of the cell that calls one
    tool directly. *)
Definition single_tool_chain (t : tool) : runnable :=
  RPipe (RItemGetter "arguments") (RTool t).

(** * Properties *)

(** ** The monad *)

Lemma bind_lift_ok {A B} (a : A) (k : A -> M B) :
  (do x <- lift (Ok a); k x) = k a.
Proof. unfold bind, lift. destruct (k a) as [log r]. reflexivity. Qed.

Lemma bind_lift_raise {A B} (e : exc) (k : A -> M B) :
  (do x <- lift (Raise e); k x) = ([], Raise e).
Proof. reflexivity. Qed.

(** ** The tool map *)

Lemma foldl_register_notin (l : list tool) (m : gmap string tool) (n : string) :
  n ∉ name <$> l -> foldl register m l !! n = m !! n.
Proof.
  revert m. induction l as [|t l IH]; intros m Hn; [reflexivity|].
  rewrite fmap_cons, not_elem_of_cons in Hn. destruct Hn as [Hne Hn].
  simpl. rewrite (IH _ Hn). unfold register.
  apply lookup_insert_ne. congruence.
Qed.

Lemma tool_map_of_snoc (l : list tool) (t : tool) :
  tool_map_of (l ++ [t]) = register (tool_map_of l) t.
Proof. unfold tool_map_of. rewrite foldl_app. reflexivity. Qed.

Lemma tool_map_of_unregistered (l : list tool) (n : string) :
  n ∉ name <$> l -> tool_map_of l !! n = None.
Proof.
  intros Hn. unfold tool_map_of. rewrite (foldl_register_notin _ _ _ Hn).
  apply lookup_empty.
Qed.

Lemma tool_map_of_registered (l : list tool) (n : string) (t : tool) :
  tool_map_of l !! n = Some t -> t ∈ l /\ name t = n.
Proof.
  induction l as [|t' l IH] using rev_ind.
  - unfold tool_map_of. simpl. rewrite lookup_empty. discriminate.
  - rewrite tool_map_of_snoc. unfold register.
    rewrite lookup_insert. case_decide as Hd.
    + intros [= <-]. split; [|exact Hd].
      apply elem_of_app. right. apply list_elem_of_singleton. reflexivity.
    + intros H. destruct (IH H) as [Hin Hname]. split; [|exact Hname].
      apply elem_of_app. left. exact Hin.
Qed.

Lemma tool_map_of_is_Some (l : list tool) (n : string) :
  n ∈ name <$> l -> is_Some (tool_map_of l !! n).
Proof.
  induction l as [|t' l IH] using rev_ind.
  - intros Hin. apply elem_of_nil in Hin. destruct Hin.
  - rewrite fmap_app, elem_of_app. rewrite tool_map_of_snoc. unfold register.
    rewrite lookup_insert. case_decide as Hd; [eauto|].
    intros [Hin | Hin]; [auto|].
    simpl in Hin. apply list_elem_of_singleton in Hin. congruence.
Qed.

(** ** The argument schema *)

Lemma validate_vals_lookup (schema : list field) (d : gmap string value)
    (k : string) (v : value) :
  (validate schema d).2 !! k = Some v ->
  k ∈ fname <$> schema /\ is_Some (d !! k).
Proof.
  induction schema as [|f rest IH]; simpl.
  - rewrite lookup_empty. discriminate.
  - destruct (validate rest d) as [errs vals]. simpl in IH.
    assert (Hrest : vals !! k = Some v ->
              k ∈ fname f :: (fname <$> rest) /\ is_Some (d !! k)).
    { intros H. destruct (IH H) as [Hin Hd]. split; [|exact Hd].
      apply elem_of_cons. right. exact Hin. }
    destruct (d !! fname f) as [w|] eqn:Hw; [|exact Hrest].
    destruct (validator f w) as [msg|w']; [exact Hrest|].
    simpl. rewrite lookup_insert. case_decide as Hk; [|exact Hrest].
    intros _. subst k. split; [apply elem_of_cons; left; reflexivity|].
    rewrite Hw. eauto.
Qed.

Lemma validate_no_errors (schema : list field) (d : gmap string value) :
  (validate schema d).1 = [] ->
  forall f, f ∈ schema -> is_Some ((validate schema d).2 !! fname f).
Proof.
  induction schema as [|f rest IH]; simpl; intros Herr g Hg.
  - apply elem_of_nil in Hg. destruct Hg.
  - destruct (validate rest d) as [errs vals]. simpl in IH.
    destruct (d !! fname f) as [w|]; [|discriminate].
    destruct (validator f w) as [msg|w']; [discriminate|].
    simpl in *. rewrite lookup_insert. case_decide as Hk; [eauto|].
    apply elem_of_cons in Hg. destruct Hg as [->|Hg]; [congruence|].
    apply IH; assumption.
Qed.

Lemma validate_missing (schema : list field) (d : gmap string value)
    (p : string) :
  p ∈ fname <$> schema -> d !! p = None ->
  (p, "field required") ∈ (validate schema d).1.
Proof.
  induction schema as [|f rest IH]; simpl; intros Hin Hd.
  - apply elem_of_nil in Hin. destruct Hin.
  - destruct (validate rest d) as [errs vals]. simpl in IH.
    apply elem_of_cons in Hin.
    destruct (decide (p = fname f)) as [->|Hne].
    + rewrite Hd. simpl. apply elem_of_cons. left. reflexivity.
    + destruct Hin as [Heq|Hin]; [congruence|].
      specialize (IH Hin Hd).
      destruct (d !! fname f) as [w|]; [destruct (validator f w)|]; simpl;
        try (apply elem_of_cons; right); exact IH.
Qed.

Lemma validate_ext (schema : list field) (d d' : gmap string value) :
  (forall f, f ∈ schema -> d !! fname f = d' !! fname f) ->
  validate schema d = validate schema d'.
Proof.
  induction schema as [|f rest IH]; simpl; intros H; [reflexivity|].
  rewrite IH, (H f).
  - reflexivity.
  - apply elem_of_cons. left. reflexivity.
  - intros g Hg. apply H. apply elem_of_cons. right. exact Hg.
Qed.

Lemma validate_accepts (schema : list field) (d : gmap string value) :
  (forall f, f ∈ schema -> exists v, d !! fname f = Some v /\ validator f v = inr v) ->
  (validate schema d).1 = [] /\
  forall k, (k ∈ fname <$> schema -> (validate schema d).2 !! k = d !! k) /\
            (k ∉ fname <$> schema -> (validate schema d).2 !! k = None).
Proof.
  induction schema as [|f rest IH]; intros H.
  - split; [reflexivity|]. intros k. split; intros Hk.
    + apply elem_of_nil in Hk. destruct Hk.
    + apply lookup_empty.
  - destruct IH as [IH1 IH2].
    { intros g Hg. apply H. apply elem_of_cons. right. exact Hg. }
    cbn [validate]. destruct (validate rest d) as [errs vals].
    cbn [fst snd] in IH1, IH2.
    destruct (H f) as (v & Hv & Hval); [apply elem_of_cons; left; reflexivity|].
    rewrite Hv, Hval. cbn [fst snd]. split; [exact IH1|].
    intros k. rewrite fmap_cons, lookup_insert. case_decide as Hk.
    + subst k. split; intros Hin; [symmetry; exact Hv|].
      exfalso. apply Hin. apply elem_of_cons. left. reflexivity.
    + destruct (IH2 k) as [IHin IHout]. split; intros Hin.
      * apply elem_of_cons in Hin. destruct Hin as [Heq|Hin]; [congruence|].
        exact (IHin Hin).
      * apply IHout. intros Hin'. apply Hin. apply elem_of_cons. right. exact Hin'.
Qed.

Lemma validate_matches (schema : list field) (d : gmap string value) :
  matches schema d -> validate schema d = ([], d).
Proof.
  intros [Hkeys Hvals].
  destruct (validate_accepts schema d) as [Herr Hlook].
  - intros f Hf. destruct (proj2 (Hkeys (fname f))) as [v Hv].
    + apply list_elem_of_fmap. exists f. split; [reflexivity | exact Hf].
    + exists v. split; [exact Hv | apply (Hvals f v Hf Hv)].
  - destruct (validate schema d) as [errs vals]. cbn [fst snd] in *. subst errs.
    f_equal. apply map_eq. intros k. destruct (Hlook k) as [Hin Hout].
    destruct (decide (k ∈ fname <$> schema)) as [Hk|Hk]; [exact (Hin Hk)|].
    rewrite (Hout Hk). symmetry. apply eq_None_not_Some.
    intros Hs. apply Hk. apply Hkeys. exact Hs.
Qed.

Lemma parse_input_valid (t : tool) (d vals : gmap string value) :
  validate (args t) d = ([], vals) -> parse_input t (PDict d) = Ok ([], vals).
Proof.
  intros Hv. unfold parse_input, parse_obj. rewrite Hv. do 2 f_equal.
  apply map_filter_id. intros k v Hk. simpl.
  pose proof (validate_vals_lookup (args t) d k v) as H.
  rewrite Hv in H. exact (proj2 (H Hk)).
Qed.

(** ** Binding arguments to parameters *)

Lemma filter_unbound_nil (params : list string) (env : gmap string value) :
  (forall p, p ∈ params -> is_Some (env !! p)) ->
  filter (λ p, env !! p = None) params = [].
Proof.
  induction params as [|p params IH]; intros H; [reflexivity|].
  rewrite filter_cons. destruct (H p) as [v Hv]; [apply elem_of_cons; left; reflexivity|].
  rewrite decide_False by (rewrite Hv; discriminate).
  apply IH. intros q Hq. apply H. apply elem_of_cons. right. exact Hq.
Qed.

Lemma bind_args_keywords (params : list string) (kw : gmap string value) :
  (forall k, is_Some (kw !! k) <-> k ∈ params) ->
  bind_args params [] kw = Ok kw.
Proof.
  intros Hkw. unfold bind_args.
  rewrite decide_False by (simpl; lia).
  rewrite zip_with_nil_r. cbn [list_to_map foldr].
  rewrite decide_True.
  2:{ intros k v Hk. apply Hkw. rewrite Hk. eauto. }
  rewrite decide_True.
  2:{ intros k v Hk. apply lookup_empty. }
  rewrite (right_id_L ∅ (∪)).
  rewrite filter_unbound_nil; [reflexivity|].
  intros p Hp. apply Hkw. exact Hp.
Qed.

Lemma bind_args_positional (params : list string) (pos : list value) :
  length pos = length params ->
  bind_args params pos ∅ = Ok (list_to_map (zip params pos)).
Proof.
  intros Hlen. unfold bind_args.
  rewrite decide_False by lia.
  rewrite decide_True by apply map_Forall_empty.
  rewrite decide_True by apply map_Forall_empty.
  rewrite (left_id_L ∅ (∪)).
  rewrite filter_unbound_nil; [reflexivity|].
  intros p Hp. apply not_eq_None_Some. intros Hnone.
  apply not_elem_of_list_to_map in Hnone. apply Hnone.
  rewrite fst_zip by lia. exact Hp.
Qed.





Lemma validate_dom (schema : list field) (d vals : gmap string value) :
  validate schema d = ([], vals) ->
  forall k, is_Some (vals !! k) <-> k ∈ fname <$> schema.
Proof.
  intros Hv k. split.
  - intros [v Hk]. pose proof (validate_vals_lookup schema d k v) as H.
    rewrite Hv in H. exact (proj1 (H Hk)).
  - intros Hk. apply list_elem_of_fmap in Hk. destruct Hk as (f & -> & Hf).
    pose proof (validate_no_errors schema d) as H. rewrite Hv in H.
    apply H; [reflexivity | exact Hf].
Qed.



(** The function called with keyword arguments for exactly its parameters
    runs on them. *)
Lemma run_func_keywords (t : tool) (kw : gmap string value) :
  (forall k, is_Some (kw !! k) <-> k ∈ fname <$> args t) ->
  run_func t [] kw = ([Call (name t) kw], func t kw).
Proof.
  intros Hkw. unfold run_func. rewrite (bind_args_keywords _ _ Hkw).
  rewrite bind_lift_ok. reflexivity.
Qed.

(** ** Tool calls and plain inputs *)

Lemma is_tool_call_false (d : gmap string value) :
  d !! "type" <> Some (PStr "tool_call") -> is_tool_call (PDict d) = false.
Proof.
  intros H. unfold is_tool_call.
  destruct (d !! "type") as [[| | |s| |]|]; try reflexivity.
  apply String.eqb_neq. congruence.
Qed.

Lemma is_tool_call_true (d : gmap string value) :
  d !! "type" = Some (PStr "tool_call") -> is_tool_call (PDict d) = true.
Proof. intros H. unfold is_tool_call. rewrite H. reflexivity. Qed.

Lemma invoke_plain (t : tool) (input : value) :
  is_tool_call input = false -> invoke t input = run t input.
Proof. intros H. unfold invoke. rewrite H. reflexivity. Qed.

Lemma run_dict_valid (t : tool) (d vals : gmap string value) :
  validate (args t) d = ([], vals) ->
  run t (PDict d) = run_func t [] vals.
Proof.
  intros Hv. unfold run. rewrite (parse_input_valid t d vals Hv).
  rewrite bind_lift_ok. reflexivity.
Qed.

Lemma run_dict_invalid (t : tool) (d : gmap string value) :
  (validate (args t) d).1 <> [] ->
  run t (PDict d) = ([], Raise (ValidationError (validate (args t) d).1)).
Proof.
  intros Hv. unfold run, parse_input, parse_obj.
  destruct (validate (args t) d) as [[|e errs] vals]; [contradiction|].
  reflexivity.
Qed.

Lemma invoke_dict_valid (t : tool) (d vals : gmap string value) :
  d !! "type" <> Some (PStr "tool_call") ->
  validate (args t) d = ([], vals) ->
  invoke t (PDict d) = ([Call (name t) vals], func t vals).
Proof.
  intros Hplain Hv.
  rewrite (invoke_plain _ _ (is_tool_call_false d Hplain)).
  rewrite (run_dict_valid t d vals Hv).
  apply run_func_keywords, (validate_dom _ _ _ Hv).
Qed.

Lemma invoke_dict_invalid (t : tool) (d : gmap string value) :
  d !! "type" <> Some (PStr "tool_call") ->
  (validate (args t) d).1 <> [] ->
  invoke t (PDict d) = ([], Raise (ValidationError (validate (args t) d).1)).
Proof.
  intros Hplain Hv.
  rewrite (invoke_plain _ _ (is_tool_call_false d Hplain)).
  apply run_dict_invalid, Hv.
Qed.

(** A tool call without an identifier fails before the tool is looked at. *)
Lemma invoke_tool_call_without_id (t : tool) (d : gmap string value) :
  d !! "type" = Some (PStr "tool_call") -> d !! "id" = None ->
  invoke t (PDict d) = ([], Raise (KeyError (PStr "id"))).
Proof.
  intros Htype Hid. unfold invoke. rewrite (is_tool_call_true d Htype).
  unfold getitem at 1. rewrite Hid. reflexivity.
Qed.

(** ** The dispatch step *)

Lemma matches_str_singleton (x s : string) :
  matches [str_field x] {[x := PStr s]}.
Proof.
  split.
  - intros k. rewrite fmap_cons, fmap_nil, list_elem_of_singleton. simpl.
    rewrite lookup_singleton_is_Some. split; congruence.
  - intros f v Hf Hv. apply list_elem_of_singleton in Hf. subst f. simpl in *.
    rewrite lookup_singleton_eq in Hv. injection Hv as <-. reflexivity.
Qed.

Section ResolvedDecision.

(** A parsed model output whose ['name'] is the name [n] of the tool [t] in
    the tool map and whose ['arguments'] is the dictionary [d]; the
    dictionary is not one that the library reads as a tool call. *)
Variable tools : list tool.
Variable model_output : value.
Variable n : string.
Variable t : tool.
Variable d : gmap string value.
Hypothesis Hname : getitem model_output "name" = Ok (PStr n).
Hypothesis Hlook : tool_map_of tools !! n = Some t.
Hypothesis Hargs : getitem model_output "arguments" = Ok (PDict d).
Hypothesis Hplain : d !! "type" <> Some (PStr "tool_call").

Lemma tool_chain_resolved :
  tool_chain tools model_output = Ok (RPipe (RItemGetter "arguments") (RTool t)).
Proof.
  unfold tool_chain, tool_map_getitem. rewrite Hname, Hlook. reflexivity.
Qed.

Lemma dispatch_resolved :
  invoke_lambda (tool_chain tools) model_output = invoke t (PDict d).
Proof.
  unfold invoke_lambda. rewrite tool_chain_resolved, bind_lift_ok.
  cbn [invoke_runnable]. rewrite Hargs, bind_lift_ok. reflexivity.
Qed.


(** C5, amended.  For a decision that resolves to a registered tool and
    whose arguments are not read as a tool call: when the arguments lack a
    declared parameter the dispatch raises the tool's [ValidationError],
    which lists that parameter as required, and the tool's function has not
    run; an argument that is not declared is dropped, the result being that
    of the arguments without it, and when the function runs, it runs on the
    checked values of the declared parameters and on nothing else. *)
Theorem dispatch_argument_mismatch :
  (forall p, p ∈ fname <$> args t -> d !! p = None ->
     exists errs,
       outcome (invoke_lambda (tool_chain tools) model_output)
         = Raise (ValidationError errs) /\
       (p, "field required") ∈ errs /\
       calls (invoke_lambda (tool_chain tools) model_output) = []) /\
  (forall x, x ∉ fname <$> args t ->
     invoke_lambda (tool_chain tools) model_output
       = invoke t (PDict (delete x d))) /\
  (forall vals, validate (args t) d = ([], vals) ->
     invoke_lambda (tool_chain tools) model_output
       = ([Call (name t) vals], func t vals) /\
     forall x, x ∉ fname <$> args t -> vals !! x = None).
Proof.
  rewrite dispatch_resolved. split; [|split].
  3:{ intros vals Hv. split; [apply (invoke_dict_valid t d vals Hplain Hv)|].
      intros x Hx. apply eq_None_not_Some. intros Hs. apply Hx.
      apply (validate_dom _ _ _ Hv). exact Hs. }
  - intros p Hp Hd. exists (validate (args t) d).1.
    pose proof (validate_missing (args t) d p Hp Hd) as Hin.
    rewrite (invoke_dict_invalid t d Hplain).
    + split; [reflexivity|]. split; [exact Hin | reflexivity].
    + intros Hnil. rewrite Hnil in Hin. apply elem_of_nil in Hin. exact Hin.
  - intros x Hx.
    assert (Hext : validate (args t) (delete x d) = validate (args t) d).
    { apply validate_ext. intros f Hf. apply lookup_delete_ne.
      intros ->. apply Hx. apply list_elem_of_fmap. eauto. }
    assert (Hplain' : delete x d !! "type" <> Some (PStr "tool_call")).
    { rewrite lookup_delete. case_decide; [discriminate | exact Hplain]. }
    destruct (validate (args t) d) as [[|e errs] vals] eqn:Hv.
    + rewrite (invoke_dict_valid t d vals Hplain Hv).
      rewrite (invoke_dict_valid t (delete x d) vals Hplain' Hext). reflexivity.
    + rewrite (invoke_dict_invalid t d Hplain) by (rewrite Hv; discriminate).
      rewrite (invoke_dict_invalid t _ Hplain') by (rewrite Hext; discriminate).
      rewrite Hext, Hv. reflexivity.
Qed.


End ResolvedDecision.


(** C5 as the spec states it does not hold.  An argument the tool does not
    declare is no error: the undeclared ['mood'] is dropped and the function
    runs on ['game'] alone.  The failure for a missing parameter is the
    [ValidationError] of the tool's schema, the exception that a value of
    the wrong type raises as well.  And arguments with the entry
    ['type': 'tool_call'] are not checked against the parameters at all:
    they are read as a tool call, which lacks its ['id'] here. *)
Lemma extra_argument_is_ignored :
  invoke_lambda (tool_chain tools)
    (decision "negative_comment"
       (PDict (<["mood" := PStr "sad"]> {["game" := PStr "Zelda"]}))) =
  ([Call "negative_comment" {["game" := PStr "Zelda"]}],
   Ok (PStr "Zelda seems not better than Genshin Impact...")) /\
  invoke_lambda (tool_chain tools) (decision "negative_comment" (PDict ∅)) =
  ([], Raise (ValidationError [("game", "field required")])) /\
  invoke_lambda (tool_chain tools)
    (decision "negative_comment" (PDict {["game" := PNone]})) =
  ([], Raise (ValidationError [("game", "none is not an allowed value")])) /\
  invoke_lambda (tool_chain tools)
    (decision "negative_comment"
       (PDict (<["type" := PStr "tool_call"]> {["game" := PStr "Zelda"]}))) =
  ([], Raise (KeyError (PStr "id"))).
Proof. repeat split. Qed.

Lemma dispatch_argument_mismatch_witness :
  (forall p, p ∈ fname <$> args negative_comment ->
     ({["mood" := PStr "sad"]} : gmap string value) !! p = None ->
     exists errs,
       outcome (invoke_lambda (tool_chain tools)
                  (decision "negative_comment" (PDict {["mood" := PStr "sad"]})))
         = Raise (ValidationError errs) /\
       (p, "field required") ∈ errs /\
       calls (invoke_lambda (tool_chain tools)
                (decision "negative_comment" (PDict {["mood" := PStr "sad"]})))
         = []) /\
  (forall x, x ∉ fname <$> args negative_comment ->
     invoke_lambda (tool_chain tools)
       (decision "negative_comment" (PDict {["mood" := PStr "sad"]}))
       = invoke negative_comment (PDict (delete x {["mood" := PStr "sad"]}))) /\
  (forall vals,
     validate (args negative_comment) {["mood" := PStr "sad"]} = ([], vals) ->
     invoke_lambda (tool_chain tools)
       (decision "negative_comment" (PDict {["mood" := PStr "sad"]}))
       = ([Call (name negative_comment) vals], func negative_comment vals) /\
     forall x, x ∉ fname <$> args negative_comment -> vals !! x = None).
Proof.
  apply (dispatch_argument_mismatch tools _ "negative_comment");
    [reflexivity | reflexivity | reflexivity | discriminate].
Defined.


(** What the call of [versus_comment] with the two values in the order of
    its signature gives: the first is bound to [game], the second to
    [rival]. *)
Lemma versus_comment_positional :
  ordered_values (args versus_comment)
    (<["rival" := PStr "DotA2"]> {["game" := PStr "Zelda"]})
    = [PStr "Zelda"; PStr "DotA2"] /\
  run_func versus_comment [PStr "Zelda"; PStr "DotA2"] ∅
    = ([Call "versus_comment"
          (<["game" := PStr "Zelda"]> {["rival" := PStr "DotA2"]})],
       Ok (PStr "Zelda is better than DotA2")).
Proof. split; reflexivity. Qed.

(** C2 as the spec states it does not hold: the failure for a tool that is
    not registered is no error of its own kind.  It is the [KeyError] of
    the lookup in [tool_map]; a decision that names the unregistered tool
    ['name'] fails exactly as a model output without the key ['name']
    does. *)
Lemma unknown_tool_is_a_key_error :
  invoke_lambda (tool_chain tools)
    (decision "translate_comment" (PDict {["game" := PStr "Zelda"]}))
  = ([], Raise (KeyError (PStr "translate_comment"))) /\
  invoke_lambda (tool_chain tools)
    (decision "name" (PDict {["game" := PStr "Zelda"]}))
  = ([], Raise (KeyError (PStr "name"))) /\
  invoke_lambda (tool_chain tools)
    (PDict {["arguments" := PDict {["game" := PStr "Zelda"]}]})
  = ([], Raise (KeyError (PStr "name"))).
Proof. repeat split. Qed.

(** C2, amended.  A decision naming a tool that is not in the registry makes
    the dispatch raise the lookup's [KeyError] for that name, and no tool
    function has run. *)
Theorem dispatch_unknown_tool (tools : list tool) (model_output : value)
    (n : string) :
  getitem model_output "name" = Ok (PStr n) ->
  n ∉ name <$> tools ->
  outcome (invoke_lambda (tool_chain tools) model_output)
    = Raise (KeyError (PStr n)) /\
  calls (invoke_lambda (tool_chain tools) model_output) = [].
Proof.
  intros Hname Hn. unfold invoke_lambda, tool_chain, tool_map_getitem.
  rewrite Hname, (tool_map_of_unregistered _ _ Hn). split; reflexivity.
Qed.

Lemma dispatch_unknown_tool_witness :
  outcome (invoke_lambda (tool_chain tools)
             (decision "translate_comment" (PDict {["game" := PStr "Zelda"]})))
    = Raise (KeyError (PStr "translate_comment")) /\
  calls (invoke_lambda (tool_chain tools)
           (decision "translate_comment" (PDict {["game" := PStr "Zelda"]})))
    = [].
Proof.
  apply (dispatch_unknown_tool tools _ "translate_comment").
  - reflexivity.
  - apply (bool_decide_unpack _). vm_compute. exact I.
Defined.

(** C3 as the spec states it does not hold: entering a second tool under a
    name that is taken raises nothing, and the name then resolves to the
    second tool.  Here the positive comment is entered as
    [negative_comment] after the real one, and the dispatch of a
    [negative_comment] decision answers with the positive comment. *)
Lemma duplicate_name_overwrites :
  tool_map_of [negative_comment; renamed_positive_comment] !! "negative_comment"
    = Some renamed_positive_comment /\
  tool_map_of [negative_comment; renamed_positive_comment] !! "negative_comment"
    <> Some negative_comment /\
  outcome (invoke_lambda (tool_chain [negative_comment; renamed_positive_comment])
             (decision "negative_comment" (PDict {["game" := PStr "Zelda"]})))
    = Ok (PStr "Zelda is the best game in the world !!!").
Proof.
  split; [reflexivity|]. split; [|reflexivity].
  intros H. apply (f_equal (fmap description)) in H. vm_compute in H.
  discriminate H.
Qed.

(** C3, amended.  Entering a tool whose name is already in the map never
    fails and adds no entry; afterwards the name resolves to the tool
    entered last, no longer to the first one, and every other name resolves
    as before. *)
Theorem register_same_name_replaces (l : list tool) (t first : tool) :
  tool_map_of l !! name t = Some first ->
  tool_map_of (l ++ [t]) !! name t = Some t /\
  (t <> first -> tool_map_of (l ++ [t]) !! name t <> Some first) /\
  size (tool_map_of (l ++ [t])) = size (tool_map_of l) /\
  forall n, n <> name t -> tool_map_of (l ++ [t]) !! n = tool_map_of l !! n.
Proof.
  intros Hfirst. rewrite tool_map_of_snoc. unfold register.
  rewrite lookup_insert_eq. split; [reflexivity|]. split; [congruence|]. split.
  - apply map_size_insert_Some. rewrite Hfirst. eauto.
  - intros n Hn. apply lookup_insert_ne. congruence.
Qed.

Lemma register_same_name_replaces_witness :
  tool_map_of (tools ++ [renamed_positive_comment])
    !! name renamed_positive_comment = Some renamed_positive_comment /\
  (renamed_positive_comment <> negative_comment ->
   tool_map_of (tools ++ [renamed_positive_comment])
     !! name renamed_positive_comment <> Some negative_comment) /\
  size (tool_map_of (tools ++ [renamed_positive_comment]))
    = size (tool_map_of tools) /\
  forall n, n <> name renamed_positive_comment ->
    tool_map_of (tools ++ [renamed_positive_comment]) !! n
    = tool_map_of tools !! n.
Proof.
  apply (register_same_name_replaces tools renamed_positive_comment
           negative_comment).
  reflexivity.
Defined.

(** C9. With [negative_comment] and [positive_comment] registered, the
    decision for [negative_comment] on Zelda gives
    "Zelda seems not better than Genshin Impact..." and the decision for
    [positive_comment] on Zelda gives
    "Zelda is the best game in the world !!!"; the first also holds with
    [negative_comment] registered alone. *)
Theorem scenario_A_and_B :
  outcome (invoke_lambda (tool_chain tools)
             (decision "negative_comment" (PDict {["game" := PStr "Zelda"]})))
    = Ok (PStr "Zelda seems not better than Genshin Impact...") /\
  outcome (invoke_lambda (tool_chain tools)
             (decision "positive_comment" (PDict {["game" := PStr "Zelda"]})))
    = Ok (PStr "Zelda is the best game in the world !!!") /\
  outcome (invoke_lambda (tool_chain [negative_comment])
             (decision "negative_comment" (PDict {["game" := PStr "Zelda"]})))
    = Ok (PStr "Zelda seems not better than Genshin Impact...").
Proof. repeat split; reflexivity. Qed.

(** The ['output'] entry that [RunnablePassthrough.assign(output=tool_chain)]
    adds is what the plain dispatch step returns. *)
Lemma assign_output_entry (f : value -> result runnable)
    (d : gmap string value) :
  (do r <- assign_output f (PDict d); lift (getitem r "output"))
  = invoke_lambda f (PDict d).
Proof.
  unfold assign_output, bind, ret, lift.
  destruct (invoke_lambda f (PDict d)) as [log [out|e]]; [|reflexivity].
  cbn [getitem]. rewrite lookup_insert_eq.
  rewrite !app_nil_r. reflexivity.
Qed.

(** C10. The dispatch step reads the keys ['name'] and ['arguments'] of the
    parsed output and nothing else: two outputs that agree on these two
    keys resolve to the same chain and give the same calls and the same
    result, also as the ['output'] entry of the passthrough variant. *)
Theorem dispatch_depends_on_name_and_arguments (tools : list tool)
    (d d' : gmap string value) :
  d !! "name" = d' !! "name" ->
  d !! "arguments" = d' !! "arguments" ->
  tool_chain tools (PDict d) = tool_chain tools (PDict d') /\
  invoke_lambda (tool_chain tools) (PDict d)
    = invoke_lambda (tool_chain tools) (PDict d') /\
  (do r <- assign_output (tool_chain tools) (PDict d); lift (getitem r "output"))
    = (do r <- assign_output (tool_chain tools) (PDict d'); lift (getitem r "output")).
Proof.
  intros Hname Hargs.
  assert (Hchain : tool_chain tools (PDict d) = tool_chain tools (PDict d')).
  { unfold tool_chain, getitem. rewrite Hname. reflexivity. }
  assert (Hrun : invoke_lambda (tool_chain tools) (PDict d)
                 = invoke_lambda (tool_chain tools) (PDict d')).
  { unfold invoke_lambda. rewrite <- Hchain.
    unfold tool_chain, getitem.
    destruct (d !! "name") as [nm|]; [|reflexivity].
    destruct (tool_map_getitem (tool_map_of tools) nm) as [t|e]; [|reflexivity].
    rewrite !bind_lift_ok. cbn [invoke_runnable getitem].
    rewrite Hargs. reflexivity. }
  split; [exact Hchain|]. split; [exact Hrun|].
  rewrite !assign_output_entry. exact Hrun.
Qed.

Lemma dispatch_depends_on_name_and_arguments_witness :
  let d : gmap string value :=
    <["name" := PStr "positive_comment"]>
      (<["arguments" := PDict {["game" := PStr "Zelda"]}]> ∅) in
  let d' : gmap string value :=
    <["reason" := PStr "Zelda belongs to the Zelda series"]>
      (<["confidence" := PInt 9]> d) in
  tool_chain tools (PDict d) = tool_chain tools (PDict d') /\
  invoke_lambda (tool_chain tools) (PDict d)
    = invoke_lambda (tool_chain tools) (PDict d') /\
  (do r <- assign_output (tool_chain tools) (PDict d); lift (getitem r "output"))
    = (do r <- assign_output (tool_chain tools) (PDict d'); lift (getitem r "output")).
Proof.
  intros d d'. apply (dispatch_depends_on_name_and_arguments tools d d');
    reflexivity.
Defined.

(** ** Rendering *)

Lemma append_assoc (a b c : string) : (a +:+ b) +:+ c = a +:+ (b +:+ c).
Proof.
  induction a as [|x a IH]; [reflexivity|].
  change (String x ((a +:+ b) +:+ c) = String x (a +:+ (b +:+ c))).
  rewrite IH. reflexivity.
Qed.

Lemma chars_append (a b : string) :
  chars (a +:+ b) = (chars a ++ chars b)%list.
Proof.
  induction a as [|x a IH]; [reflexivity|].
  change (x :: chars (a +:+ b) = x :: (chars a ++ chars b)%list).
  rewrite IH. reflexivity.
Qed.

Lemma split_on_whole (c : ascii) (s : string) :
  c ∉ chars s -> split_on c s = [s].
Proof.
  induction s as [|a s IH]; intros Hc; [reflexivity|].
  cbn [chars] in Hc. apply not_elem_of_cons in Hc. destruct Hc as [Hne Hc].
  cbn [split_on]. destruct (Ascii.eqb_spec a c) as [->|_]; [congruence|].
  rewrite (IH Hc). reflexivity.
Qed.

Lemma split_on_append (c : ascii) (x y : string) :
  c ∉ chars x -> split_on c (x +:+ String c y) = x :: split_on c y.
Proof.
  induction x as [|a x IH]; intros Hc.
  - change ("" +:+ String c y) with (String c y).
    cbn [split_on]. rewrite Ascii.eqb_refl. reflexivity.
  - cbn [chars] in Hc. apply not_elem_of_cons in Hc. destruct Hc as [Hne Hc].
    change (String a x +:+ String c y) with (String a (x +:+ String c y)).
    cbn [split_on].
    destruct (Ascii.eqb_spec a c) as [->|_]; [congruence|].
    rewrite (IH Hc). reflexivity.
Qed.

Lemma split_on_concat (c : ascii) (lines : list string) :
  lines <> [] ->
  Forall (λ l, c ∉ chars l) lines ->
  split_on c (String.concat (String c "") lines) = lines.
Proof.
  induction lines as [|l lines IH]; intros Hne Hall; [congruence|].
  apply Forall_cons in Hall. destruct Hall as [Hl Hall].
  destruct lines as [|l' lines].
  - cbn. apply split_on_whole. exact Hl.
  - change (String.concat (String c "") (l :: l' :: lines))
      with (l +:+ String c (String.concat (String c "") (l' :: lines))).
    rewrite (split_on_append c l _ Hl). f_equal.
    apply IH; [discriminate | exact Hall].
Qed.

(** The lines of texts joined by a separator are the lines of the texts,
    one text after the other. *)
Lemma split_on_nonempty (c : ascii) (s : string) : split_on c s <> [].
Proof.
  destruct s as [|a s]; [discriminate|]. cbn [split_on].
  destruct (Ascii.eqb a c); [discriminate|].
  destruct (split_on c s); discriminate.
Qed.

Lemma split_on_append_sep (c : ascii) (x y : string) :
  split_on c (x +:+ String c y) = (split_on c x ++ split_on c y)%list.
Proof.
  induction x as [|a x IH].
  - change ("" +:+ String c y) with (String c y).
    cbn [split_on]. rewrite Ascii.eqb_refl. reflexivity.
  - change (String a x +:+ String c y) with (String a (x +:+ String c y)).
    cbn [split_on]. destruct (Ascii.eqb a c); rewrite IH; [reflexivity|].
    pose proof (split_on_nonempty c x) as Hne.
    destruct (split_on c x) as [|w ws]; [congruence | reflexivity].
Qed.

Lemma split_on_concat_lines (c : ascii) (lines : list string) :
  lines <> [] ->
  split_on c (String.concat (String c "") lines)
  = concat (split_on c <$> lines).
Proof.
  induction lines as [|l lines IH]; intros Hne; [congruence|].
  destruct lines as [|l' lines].
  - cbn. rewrite app_nil_r. reflexivity.
  - change (String.concat (String c "") (l :: l' :: lines))
      with (l +:+ String c (String.concat (String c "") (l' :: lines))).
    rewrite split_on_append_sep, IH by discriminate. reflexivity.
Qed.

(** C4 as the spec states it does not hold: the line of a tool carries the
    return annotation of the function and a dash before the description.
    The rendering of [negative_comment] is the text the notebook records,
    not the line the specification describes.  And a tool whose docstring
    has two lines is rendered as two lines. *)
Lemma render_line_has_return_annotation :
  render_text_description [negative_comment]
    = "negative_comment(game: str) -> str - Give negative comment to this game." /\
  spec_render [negative_comment]
    = "negative_comment(game: str) -> Give negative comment to this game." /\
  render_text_description [negative_comment] <> spec_render [negative_comment] /\
  split_on "010"
    (render_text_description
       [{| name := "negative_comment";
           description := "Give negative comment" +:+ newline +:+ "to this game.";
           args := args negative_comment;
           returns := returns negative_comment;
           func := func negative_comment |}])
    = ["negative_comment(game: str) -> str - Give negative comment";
       "to this game."].
Proof.
  split; [reflexivity|]. split; [reflexivity|]. split; [|reflexivity].
  vm_compute. discriminate.
Qed.

(** C4, amended.  The rendering of a list of tools is the texts of the
    tools joined by newlines in the order of the list: nothing for the empty
    list, and for a list that is not empty the lines of the rendering are
    the lines of the first text, then those of the second, and so on; when
    no text contains a newline of its own these are exactly one line per
    tool.  The text of a tool is its name, its parameters in parentheses
    (each with its annotation if it has one), the annotation of the result
    after an arrow if there is one, a dash and the description.  Rendering
    is a function of the list alone. *)
Theorem render_one_line_per_tool (tools : list tool) :
  render_text_description [] = "" /\
  (forall t t' rest,
     render_text_description (t :: t' :: rest)
       = tool_line t +:+ newline +:+ render_text_description (t' :: rest)) /\
  (tools <> [] ->
     split_on "010" (render_text_description tools)
       = concat ((λ t, split_on "010" (tool_line t)) <$> tools)) /\
  (tools <> [] ->
     Forall (λ t, ("010" : ascii) ∉ chars (tool_line t)) tools ->
     split_on "010" (render_text_description tools) = tool_line <$> tools /\
     length (split_on "010" (render_text_description tools)) = length tools) /\
  (forall t,
     tool_line t =
       name t +:+ "(" +:+ String.concat ", " (param_str <$> args t) +:+ ")"
         +:+ match returns t with Some r => " -> " +:+ r | None => "" end
         +:+ " - " +:+ description t) /\
  (forall f,
     param_str f =
       match annot f with Some a => fname f +:+ ": " +:+ a | None => fname f end).
Proof.
  split; [reflexivity|]. split; [reflexivity|].
  assert (Hlines : tools <> [] ->
            split_on "010" (render_text_description tools)
            = concat ((λ t, split_on "010" (tool_line t)) <$> tools)).
  { intros Hne. unfold render_text_description, newline.
    rewrite (split_on_concat_lines "010" (tool_line <$> tools)).
    - rewrite <- list_fmap_compose. reflexivity.
    - destruct tools; [congruence | discriminate]. }
  split; [exact Hlines|]. split; [|split].
  - intros Hne Hall.
    assert (Hsplit : split_on "010" (render_text_description tools)
                     = tool_line <$> tools).
    { unfold render_text_description, newline. apply split_on_concat.
      - destruct tools; [congruence | discriminate].
      - apply Forall_fmap. exact Hall. }
    split; [exact Hsplit|]. rewrite Hsplit. apply length_fmap.
  - intros t. unfold tool_line, signature_str, returns_str.
    rewrite !append_assoc. reflexivity.
  - reflexivity.
Qed.

(** The two tools of the notebook give two lines, and a function without
    annotations is rendered without them. *)
Lemma render_examples :
  split_on "010" (render_text_description tools)
  = ["negative_comment(game: str) -> str - Give negative comment to this game.";
     "positive_comment(game: str) -> str - Give positive comment to this game."] /\
  tool_line {| name := "echo"; description := "Say it again.";
               args := [any_field "text"]; returns := None;
               func := fun env => local env "text" |}
  = "echo(text) - Say it again." /\
  split_on "010" (render_text_description []) = [""].
Proof. repeat split. Qed.

(** ** Reading back what was written *)

Lemma append_nil_l (s : string) : "" +:+ s = s.
Proof. reflexivity. Qed.

Lemma append_cons (a : ascii) (s t : string) :
  String a s +:+ t = String a (s +:+ t).
Proof. reflexivity. Qed.

Lemma parse_chars_write_char (c : ascii) (out : string) :
  parse_chars (write_char c out) =
  match parse_chars out with
  | Some (str, rest) => Some (String c str, rest)
  | None => None
  end.
Proof. ascii_cases c; reflexivity. Qed.

Lemma parse_chars_write_chars (s out : string) :
  parse_chars (write_chars s out) = Some (s, out).
Proof.
  induction s as [|c s IH].
  - reflexivity.
  - cbn [write_chars]. rewrite parse_chars_write_char, IH. reflexivity.
Qed.

(** *** Numbers *)

Lemma append_nil_r (s : string) : s +:+ "" = s.
Proof. induction s as [|a s IH]; [reflexivity|]. rewrite append_cons, IH. reflexivity. Qed.

Lemma span_digits_uint (u : Decimal.uint) (out : string) :
  stops_digits out = true ->
  span_digits (NilEmpty.string_of_uint u +:+ out)
  = (NilEmpty.string_of_uint u, out).
Proof.
  intros Hend.
  induction u as [|u IH|u IH|u IH|u IH|u IH|u IH|u IH|u IH|u IH|u IH];
    cbn [NilEmpty.string_of_uint];
    try (rewrite append_cons; cbn [span_digits];
         match goal with |- context [is_digit ?c] =>
           change (is_digit c) with true end;
         cbv iota; rewrite IH; reflexivity).
  rewrite append_nil_l. destruct out as [|c out]; [reflexivity|].
  cbn [span_digits]. unfold stops_digits in Hend.
  apply negb_true_iff in Hend. rewrite Hend. reflexivity.
Qed.

(** The decimal digits of a positive number do not begin with a zero. *)
Lemma to_uint_no_leading_zero (p : positive) (u : Decimal.uint) :
  Pos.to_uint p <> Decimal.D0 u.
Proof.
  intros H.
  pose proof (DecimalPos.Unsigned.to_of (Pos.to_uint p)) as Hn.
  rewrite DecimalPos.Unsigned.of_to in Hn. cbn [N.to_uint] in Hn.
  unfold Decimal.unorm in Hn.
  destruct (Decimal.nzhead (Pos.to_uint p)) eqn:Hz.
  - apply (DecimalPos.Unsigned.to_uint_nonzero p). exact Hn.
  - rewrite H in Hn. rewrite <- Hn in Hz.
    exact (DecimalFacts.nzhead_nonzero _ _ Hz).
  - congruence. - congruence. - congruence. - congruence. - congruence.
  - congruence. - congruence. - congruence. - congruence.
Qed.

Lemma parse_atom_number (c : ascii) (s : string) :
  is_digit c || Ascii.eqb c "-" = true ->
  parse_atom (String c s) = parse_number (String c s).
Proof.
  ascii_cases c; try discriminate; reflexivity.
Qed.

Lemma string_of_uint_head (u : Decimal.uint) :
  u <> Decimal.Nil ->
  exists c more, NilEmpty.string_of_uint u = String c more /\ is_digit c = true.
Proof.
  destruct u; [congruence| | | | | | | | | |]; intros _;
    cbn [NilEmpty.string_of_uint]; eexists _, _; (split; [reflexivity|reflexivity]).
Qed.

Lemma leading_zero_string_of_uint (u : Decimal.uint) :
  (u = Decimal.zero \/ forall u', u <> Decimal.D0 u') ->
  leading_zero (NilEmpty.string_of_uint u) = false.
Proof.
  intros Hcan. destruct u as [|u|u|u|u|u|u|u|u|u|u];
    cbn [NilEmpty.string_of_uint leading_zero]; try reflexivity;
    try (destruct (NilEmpty.string_of_uint u); reflexivity).
  destruct Hcan as [Hz|Hnz].
  - injection Hz as ->. reflexivity.
  - exfalso. exact (Hnz u eq_refl).
Qed.

Lemma digit_is_no_sign (c : ascii) :
  is_digit c = true -> Ascii.eqb c "-" = false /\ Ascii.eqb c "+" = false.
Proof. ascii_cases c; try discriminate; intros _; split; reflexivity. Qed.

(** The digits of a number without fraction, followed by what its exponent
    reads. *)
Lemma parse_number_digits (ds rest rest2 : string) (u : Decimal.uint) (x : Z) :
  span_digits (ds +:+ rest) = (ds, rest) ->
  ds <> "" ->
  leading_zero ds = false ->
  NilEmpty.uint_of_string ds = Some u ->
  parse_fraction rest = Some ("", rest) ->
  parse_exponent rest = Some (x, rest2) ->
  forall negative : bool,
    parse_number ((if negative then String "-" ds else ds) +:+ rest)
    = Some (number (if negative then - Z.of_uint u else Z.of_uint u)%Z x, rest2).
Proof.
  intros Hspan Hne Hlz Hu Hfrac Hexp negative.
  destruct ds as [|c more]; [congruence|].
  assert (Hc : Ascii.eqb c "-" = false).
  { rewrite append_cons in Hspan. cbn [span_digits] in Hspan.
    destruct (is_digit c) eqn:Hd.
    - exact (proj1 (digit_is_no_sign c Hd)).
    - discriminate Hspan. }
  unfold parse_number, parse_sign. destruct negative.
  - rewrite append_cons. rewrite Ascii.eqb_refl. rewrite Hspan.
    rewrite Hlz, Hfrac, Hexp, append_nil_r, Hu.
    cbn [String.length Z.of_nat]. rewrite Z.sub_0_r. reflexivity.
  - rewrite append_cons, Hc. rewrite <- append_cons, Hspan.
    rewrite Hlz, Hfrac, Hexp, append_nil_r, Hu.
    cbn [String.length Z.of_nat]. rewrite Z.sub_0_r. reflexivity.
Qed.

Lemma parse_atom_uint (u : Decimal.uint) (rest rest2 : string) (x : Z)
    (negative : bool) :
  u <> Decimal.Nil ->
  (u = Decimal.zero \/ forall u', u <> Decimal.D0 u') ->
  stops_digits rest = true ->
  parse_fraction rest = Some ("", rest) ->
  parse_exponent rest = Some (x, rest2) ->
  parse_atom ((if negative then String "-" (NilEmpty.string_of_uint u)
               else NilEmpty.string_of_uint u) +:+ rest)
  = Some (number (if negative then - Z.of_uint u else Z.of_uint u)%Z x, rest2).
Proof.
  intros Hnil Hcan Hend Hfrac Hexp.
  destruct (string_of_uint_head u Hnil) as (c & more & Hs & Hd).
  rewrite <- (parse_number_digits (NilEmpty.string_of_uint u) rest rest2 u x
                (span_digits_uint u rest Hend)
                ltac:(rewrite Hs; discriminate)
                (leading_zero_string_of_uint u Hcan)
                (NilEmpty.usu u) Hfrac Hexp negative).
  destruct negative.
  - rewrite append_cons. apply parse_atom_number. reflexivity.
  - rewrite Hs, append_cons. apply parse_atom_number. rewrite Hd. reflexivity.
Qed.

(** The mantissa of a written number, followed by what its exponent
    reads. *)
Lemma parse_atom_mantissa (m x : Z) (rest rest2 : string) :
  stops_digits rest = true ->
  parse_fraction rest = Some ("", rest) ->
  parse_exponent rest = Some (x, rest2) ->
  parse_atom (str_of_int m +:+ rest) = Some (number m x, rest2).
Proof.
  intros Hend Hfrac Hexp. unfold str_of_int. destruct m as [|p|p].
  - exact (parse_atom_uint Decimal.zero rest rest2 x false ltac:(discriminate)
             (or_introl eq_refl) Hend Hfrac Hexp).
  - cbn [Z.to_int NilZero.string_of_int]. unfold NilZero.string_of_uint.
    pose proof (DecimalPos.Unsigned.to_uint_nonnil p) as Hnil.
    pose proof (parse_atom_uint (Pos.to_uint p) rest rest2 x false Hnil
                  (or_intror (to_uint_no_leading_zero p)) Hend Hfrac Hexp) as H.
    cbv iota in H. unfold Z.of_uint in H.
    rewrite DecimalPos.Unsigned.of_to in H. cbn [Z.of_N] in H.
    destruct (Pos.to_uint p); [congruence|exact H..].
  - cbn [Z.to_int NilZero.string_of_int]. unfold NilZero.string_of_uint.
    pose proof (DecimalPos.Unsigned.to_uint_nonnil p) as Hnil.
    pose proof (parse_atom_uint (Pos.to_uint p) rest rest2 x true Hnil
                  (or_intror (to_uint_no_leading_zero p)) Hend Hfrac Hexp) as H.
    cbv iota in H. unfold Z.of_uint in H.
    rewrite DecimalPos.Unsigned.of_to in H. cbn [Z.of_N Z.opp] in H.
    destruct (Pos.to_uint p); [congruence|exact H..].
Qed.

Lemma ends_number_stops (out : string) :
  ends_number out = true ->
  stops_digits out = true /\
  parse_fraction out = Some ("", out) /\
  parse_exponent out = Some (0%Z, out).
Proof.
  destruct out as [|c out]; [repeat split|].
  unfold ends_number, stops_digits, parse_fraction, parse_exponent.
  intros H. apply andb_prop in H. destruct H as [Hd Hf].
  apply negb_true_iff in Hf. apply orb_false_elim in Hf. destruct Hf as [Hf He].
  apply orb_false_elim in Hf. destruct Hf as [Hp Hee].
  rewrite Hd, Hp, Hee, He. repeat split.
Qed.

(** The exponent of a written number. *)
Lemma parse_exponent_written (p : positive) (out : string) :
  stops_digits out = true ->
  parse_exponent (String "e" (str_of_int (Z.neg p) +:+ out))
  = Some (Z.neg p, out).
Proof.
  intros Hend. unfold str_of_int.
  cbn [Z.to_int NilZero.string_of_int]. unfold NilZero.string_of_uint.
  pose proof (DecimalPos.Unsigned.to_uint_nonnil p) as Hnil.
  destruct (string_of_uint_head (Pos.to_uint p) Hnil) as (c & more & Hs & Hd).
  assert (Htext : (match Pos.to_uint p with
                   | Decimal.Nil => "0"
                   | _ => NilEmpty.string_of_uint (Pos.to_uint p)
                   end) = NilEmpty.string_of_uint (Pos.to_uint p)).
  { destruct (Pos.to_uint p); [congruence | reflexivity..]. }
  rewrite Htext. unfold parse_exponent.
  change (Ascii.eqb "e" "e" || Ascii.eqb "e" "E") with true. cbv iota.
  rewrite append_cons, Ascii.eqb_refl.
  rewrite (span_digits_uint _ _ Hend), Hs, <- Hs, NilEmpty.usu.
  unfold Z.of_uint. rewrite DecimalPos.Unsigned.of_to. reflexivity.
Qed.

Lemma number_canonical (m e : Z) : canonical m e -> number m e = JNum m e.
Proof.
  intros [He Hm]. unfold number. destruct (Z.leb_spec 0 e) as [H0|H0].
  - assert (e = 0%Z) as -> by lia. rewrite Z.pow_0_r, Z.mul_1_r. reflexivity.
  - destruct (Z.to_nat (- e)) as [|fuel] eqn:Hfuel; [lia|].
    cbn [normalise].
    destruct (Z.eqb_spec (m mod 10) 0) as [Hz|_]; [exact (False_ind _ (Hm H0 Hz))|].
    rewrite andb_false_r. reflexivity.
Qed.



Lemma parse_atom_written (m e : Z) (out : string) :
  canonical m e -> ends_number out = true ->
  parse_atom (write_number m e out) = Some (JNum m e, out).
Proof.
  intros Hcan Hend. rewrite <- (number_canonical m e Hcan).
  destruct (ends_number_stops out Hend) as (Hstop & Hfrac & Hexp).
  unfold write_number. destruct Hcan as [He _].
  destruct (Z.eqb_spec e 0) as [->|Hne].
  - apply parse_atom_mantissa; assumption.
  - destruct e as [|p|p]; [congruence | lia |].
    apply parse_atom_mantissa.
    + reflexivity.
    + reflexivity.
    + apply parse_exponent_written, Hstop.
Qed.

(** *** Values and members *)

Lemma value_step_space members elements (s : string) :
  value_step members elements (String " " s) = value_step members elements s.
Proof. reflexivity. Qed.

Lemma parse_value_space (fuel : nat) (s : string) :
  parse_value fuel (String " " s) = parse_value fuel s.
Proof. destruct fuel; reflexivity. Qed.

Lemma parse_members_space (fuel : nat) (s : string) (acc : gmap string json) :
  parse_members fuel (String " " s) acc = parse_members fuel s acc.
Proof. destruct fuel; reflexivity. Qed.

Lemma value_step_atom members elements (c : ascii) (s : string) :
  is_digit c || Ascii.eqb c "-" = true ->
  value_step members elements (String c s) = parse_atom (String c s).
Proof.
  ascii_cases c; try discriminate; reflexivity.
Qed.

Lemma str_of_int_head (z : Z) :
  exists c s, str_of_int z = String c s /\ is_digit c || Ascii.eqb c "-" = true.
Proof.
  unfold str_of_int. destruct z as [|p|p].
  - eexists _, _. split; reflexivity.
  - cbn [Z.to_int NilZero.string_of_int]. unfold NilZero.string_of_uint.
    pose proof (DecimalPos.Unsigned.to_uint_nonnil p) as Hnil.
    destruct (string_of_uint_head (Pos.to_uint p) Hnil) as (c & s & Hs & Hd).
    exists c, s. split; [|rewrite Hd; reflexivity].
    rewrite <- Hs. destruct (Pos.to_uint p); [congruence | reflexivity..].
  - eexists _, _. split; reflexivity.
Qed.

Lemma write_number_head (m e : Z) (out : string) :
  exists c s, write_number m e out = String c s /\
              is_digit c || Ascii.eqb c "-" = true.
Proof.
  destruct (str_of_int_head m) as (c & s & Hs & Hc). unfold write_number.
  destruct (e =? 0)%Z; rewrite Hs, append_cons; eauto.
Qed.

Lemma ends_value_number (out : string) : ends_value out -> ends_number out = true.
Proof. intros [rest [-> | ->]]; reflexivity. Qed.

Lemma parse_value_primitive (fuel : nat) (v : json) (out : string) :
  (0 < fuel)%nat -> primitive v -> ends_value out ->
  parse_value fuel (write_value v out) = Some (v, out).
Proof.
  intros Hfuel Hv Hout. destruct fuel as [|fuel]; [lia|]. cbn [parse_value].
  destruct v as [|[]|m e|s|l|d]; try contradiction; cbn [write_value].
  - reflexivity.
  - reflexivity.
  - reflexivity.
  - destruct (write_number_head m e out) as (c & s & Hs & Hc).
    pose proof (parse_atom_written m e out Hv (ends_value_number out Hout)) as H.
    rewrite Hs in *. rewrite (value_step_atom _ _ c _ Hc).
    exact H.
  - unfold write_string, value_step. cbn [skip_ws].
    change (is_ws dquote) with false. cbv iota.
    change (Ascii.eqb dquote "{") with false.
    change (Ascii.eqb dquote "[") with false.
    rewrite Ascii.eqb_refl. cbv iota.
    rewrite parse_chars_write_chars. reflexivity.
Qed.

Lemma members_step_written read_value members (k : string) (rest : string)
    (acc : gmap string json) :
  members_step read_value members
    (write_string k (String ":" (String " " rest))) acc =
  match read_value (String " " rest) with
  | Some (v, rest3) =>
      match skip_ws rest3 with
      | String c rest4 =>
          if Ascii.eqb c "," then members rest4 (<[k := v]> acc)
          else if Ascii.eqb c "}" then Some (<[k := v]> acc, rest4)
          else None
      | EmptyString => None
      end
  | None => None
  end.
Proof.
  unfold members_step, write_string. cbn [skip_ws].
  change (is_ws dquote) with false. cbv iota.
  rewrite Ascii.eqb_refl. rewrite parse_chars_write_chars.
  reflexivity.
Qed.

Lemma parse_members_written (entries : list (string * json)) :
  forall (fuel : nat) (acc : gmap string json) (out : string),
    entries <> [] ->
    (length entries < fuel)%nat ->
    Forall (λ kv, primitive kv.2) entries ->
    parse_members fuel (write_sep (entry_writers entries) (String "}" out)) acc
    = Some (insert_entries acc entries, out).
Proof.
  induction entries as [|[k v] entries IH]; intros fuel acc out Hne Hfuel Hprim;
    [congruence|].
  apply Forall_cons in Hprim. destruct Hprim as [Hv Hprim]. cbn [fst snd] in Hv.
  cbn [length] in Hfuel.
  destruct fuel as [|fuel]; [lia|].
  change (parse_members (S fuel) ?s ?a)
    with (members_step (parse_value fuel) (parse_members fuel) s a).
  unfold entry_writers. rewrite fmap_cons.
  fold (entry_writers entries). cbn [fst snd].
  destruct entries as [|kv' entries].
  - cbn [entry_writers fmap list_fmap write_sep]. unfold write_member.
    rewrite members_step_written, parse_value_space.
    rewrite (parse_value_primitive fuel v _ ltac:(lia) Hv)
      by (eexists; right; reflexivity).
    reflexivity.
  - change (write_sep (write_member k (write_value v) :: entry_writers (kv' :: entries))
              (String "}" out))
      with (write_member k (write_value v)
              (String "," (String " "
                 (write_sep (entry_writers (kv' :: entries)) (String "}" out))))).
    unfold write_member at 1.
    rewrite members_step_written, parse_value_space.
    rewrite (parse_value_primitive fuel v _ ltac:(lia) Hv)
      by (eexists; left; reflexivity).
    cbn [skip_ws]. change (is_ws ",") with false. cbv iota.
    rewrite Ascii.eqb_refl. rewrite parse_members_space.
    apply (IH fuel (<[k:=v]> acc) out).
    + discriminate.
    + cbn [length] in *. lia.
    + exact Hprim.
Qed.

(** *** The entries of a written object *)

Lemma entries_of_writers (d : gmap string json)
    (L : list (string * (string -> string))) :
  (forall k w, (k, w) ∈ L -> exists v, d !! k = Some v /\ w = write_value v) ->
  exists entries : list (string * json),
    L = prod_map id write_value <$> entries /\
    forall k v, (k, v) ∈ entries -> d !! k = Some v.
Proof.
  induction L as [|[k w] L IH]; intros H.
  - exists []. split; [reflexivity|]. intros k v Hin.
    apply elem_of_nil in Hin. destruct Hin.
  - destruct IH as (entries & -> & Hentries).
    { intros k' w' Hin. apply H. apply elem_of_cons. right. exact Hin. }
    destruct (H k w) as (v & Hv & ->); [apply elem_of_cons; left; reflexivity|].
    exists ((k, v) :: entries). split; [reflexivity|].
    intros k' v' Hin. apply elem_of_cons in Hin.
    destruct Hin as [[= -> ->]|Hin]; [exact Hv | exact (Hentries _ _ Hin)].
Qed.

Lemma insert_entries_notin (entries : list (string * json))
    (acc : gmap string json) (k : string) :
  k ∉ entries.*1 -> insert_entries acc entries !! k = acc !! k.
Proof.
  revert acc. induction entries as [|[k' v'] entries IH]; intros acc Hk;
    [reflexivity|].
  rewrite fmap_cons in Hk. apply not_elem_of_cons in Hk. destruct Hk as [Hne Hk].
  unfold insert_entries in *. cbn [foldl fst snd]. rewrite (IH _ Hk).
  apply lookup_insert_ne. cbn [fst] in Hne. congruence.
Qed.

Lemma insert_entries_in (entries : list (string * json))
    (acc : gmap string json) (k : string) (v : json) :
  NoDup entries.*1 -> (k, v) ∈ entries ->
  insert_entries acc entries !! k = Some v.
Proof.
  revert acc. induction entries as [|[k' v'] entries IH]; intros acc Hnd Hin.
  - apply elem_of_nil in Hin. destruct Hin.
  - rewrite fmap_cons in Hnd. apply NoDup_cons in Hnd. destruct Hnd as [Hk' Hnd].
    apply elem_of_cons in Hin. destruct Hin as [[= -> ->]|Hin].
    + unfold insert_entries. cbn [foldl fst snd].
      fold (insert_entries (<[k':=v']> acc) entries).
      rewrite (insert_entries_notin _ _ _ Hk'). apply lookup_insert_eq.
    + unfold insert_entries. cbn [foldl fst snd]. apply (IH _ Hnd Hin).
Qed.

(** The writers of the members of a dictionary are the writers of a list of
    entries which, entered one by one, give the dictionary back. *)
Lemma written_entries (d : gmap string json) :
  exists entries : list (string * json),
    (λ kw, write_member kw.1 kw.2) <$> map_to_list (write_value <$> d)
      = entry_writers entries /\
    insert_entries ∅ entries = d /\
    forall k v, (k, v) ∈ entries -> d !! k = Some v.
Proof.
  destruct (entries_of_writers d (map_to_list (write_value <$> d)))
    as (entries & HL & Hentries).
  { intros k w Hin. apply elem_of_map_to_list in Hin.
    rewrite lookup_fmap in Hin.
    destruct (d !! k) as [v|]; [|discriminate].
    injection Hin as <-. eauto. }
  exists entries. split; [|split; [|exact Hentries]].
  - rewrite HL. unfold entry_writers. rewrite <- list_fmap_compose.
    apply list_fmap_ext. intros i [k v] _. reflexivity.
  - assert (Hkeys : entries.*1 = (map_to_list (write_value <$> d)).*1).
    { rewrite HL, <- list_fmap_compose. apply list_fmap_ext.
      intros i [k v] _. reflexivity. }
    assert (Hnd : NoDup entries.*1).
    { rewrite Hkeys. apply NoDup_fst_map_to_list. }
    apply map_eq. intros k.
    destruct (d !! k) as [v|] eqn:Hd.
    + assert (Hin : k ∈ entries.*1).
      { rewrite Hkeys. apply list_elem_of_fmap.
        exists (k, write_value v). split; [reflexivity|].
        apply elem_of_map_to_list. rewrite lookup_fmap, Hd. reflexivity. }
      apply list_elem_of_fmap in Hin. destruct Hin as ([k' v'] & -> & Hin).
      cbn [fst] in *. rewrite (insert_entries_in _ _ _ _ Hnd Hin).
      rewrite <- (Hentries _ _ Hin). exact Hd.
    + rewrite insert_entries_notin; [apply lookup_empty|].
      intros Hin. apply list_elem_of_fmap in Hin.
      destruct Hin as ([k' v'] & -> & Hin). cbn [fst] in Hd.
      rewrite (Hentries _ _ Hin) in Hd. discriminate.
Qed.

Lemma write_sep_head (w : string -> string) (ws : list (string -> string))
    (out : string) :
  exists out', write_sep (w :: ws) out = w out'.
Proof. destruct ws; eexists; reflexivity. Qed.

Lemma parse_value_object (d : gmap string json)
    (entries : list (string * json)) (fuel : nat) (out : string) :
  (λ kw, write_member kw.1 kw.2) <$> map_to_list (write_value <$> d)
    = entry_writers entries ->
  insert_entries ∅ entries = d ->
  Forall (λ kv, primitive kv.2) entries ->
  (length entries + 1 < fuel)%nat ->
  parse_value fuel (write_value (JObj d) out) = Some (JObj d, out).
Proof.
  intros Hw Hd Hprim Hfuel. destruct fuel as [|fuel]; [lia|].
  cbn [parse_value write_value]. rewrite Hw.
  unfold value_step. cbn [skip_ws]. change (is_ws "{") with false. cbv iota.
  rewrite Ascii.eqb_refl.
  destruct entries as [|[k v] entries].
  - cbn [entry_writers fmap list_fmap write_sep skip_ws].
    change (is_ws "}") with false. cbv iota. rewrite Ascii.eqb_refl.
    rewrite <- Hd. reflexivity.
  - set (body := write_sep (entry_writers ((k, v) :: entries)) (String "}" out)).
    assert (Hhead : exists r, body = String dquote r).
    { unfold body, entry_writers. rewrite fmap_cons.
      match goal with |- exists r, write_sep (?w :: ?ws) ?o = _ =>
        destruct (write_sep_head w ws o) as [out' ->] end.
      eexists. reflexivity. }
    destruct Hhead as [r Hr]. rewrite Hr at 1. cbn [skip_ws].
    change (is_ws dquote) with false. cbv iota.
    change (Ascii.eqb dquote "}") with false. cbv iota.
    unfold body. rewrite parse_members_written.
    + rewrite Hd. reflexivity.
    + discriminate.
    + lia.
    + exact Hprim.
Qed.

Lemma parse_value_decision (d : Decision) (entries : list (string * json))
    (fuel : nat) (out : string) :
  (λ kw, write_member kw.1 kw.2) <$> map_to_list (write_value <$> arguments d)
    = entry_writers entries ->
  insert_entries ∅ entries = arguments d ->
  Forall (λ kv, primitive kv.2) entries ->
  (length entries + 4 < fuel)%nat ->
  parse_value fuel (write_decision d out) = Some (JObj (object_of d), out).
Proof.
  intros Hw Hd Hprim Hfuel.
  destruct fuel as [|f1]; [lia|]. destruct f1 as [|f2]; [lia|].
  destruct f2 as [|f3]; [lia|].
  unfold write_decision.
  change (parse_value (S (S (S f3))) ?s)
    with (value_step (parse_members (S (S f3))) (parse_elements (S (S f3))) s).
  unfold value_step. cbn [skip_ws]. change (is_ws "{") with false. cbv iota.
  rewrite Ascii.eqb_refl.
  set (body := write_member "name" (write_string (toolName d))
                 (String "," (String " "
                    (write_member "arguments" (write_value (JObj (arguments d)))
                       (String "}" out))))).
  assert (Hhead : exists r, body = String dquote r) by (eexists; reflexivity).
  destruct Hhead as [r Hr]. rewrite Hr at 1. cbn [skip_ws].
  change (is_ws dquote) with false. cbv iota.
  change (Ascii.eqb dquote "}") with false. cbv iota.
  change (parse_members (S (S f3)) ?s ?a)
    with (members_step (parse_value (S f3)) (parse_members (S f3)) s a).
  unfold body. unfold write_member at 1.
  rewrite members_step_written, parse_value_space.
  change (write_string (toolName d) ?o) with (write_value (JStr (toolName d)) o).
  rewrite (parse_value_primitive (S f3) (JStr (toolName d)) _ ltac:(lia) I)
    by (eexists; left; reflexivity).
  cbn [skip_ws]. change (is_ws ",") with false. cbv iota.
  rewrite Ascii.eqb_refl. rewrite parse_members_space.
  change (parse_members (S f3) ?s ?a)
    with (members_step (parse_value f3) (parse_members f3) s a).
  unfold write_member. rewrite members_step_written, parse_value_space.
  rewrite (parse_value_object (arguments d) entries f3 _ Hw Hd Hprim) by lia.
  reflexivity.
Qed.

(** *** Lengths and continuations *)

Lemma length_append (a b : string) :
  String.length (a +:+ b) = (String.length a + String.length b)%nat.
Proof.
  induction a as [|x a IH]; [reflexivity|].
  rewrite append_cons. cbn [String.length]. rewrite IH. reflexivity.
Qed.

Lemma write_char_grows (c : ascii) : grows (write_char c).
Proof.
  intros out.
  ascii_cases c;
    match goal with |- (_ < String.length ?t)%nat =>
      let t' := eval lazy in t in change t with t' end;
    cbn [String.length]; lia.
Qed.

Lemma write_chars_grows (s : string) : grows (write_chars s).
Proof.
  intros out. induction s as [|c s IH]; cbn [write_chars].
  - cbn [String.length]. lia.
  - pose proof (write_char_grows c (write_chars s out)). lia.
Qed.

Lemma write_string_grows (s : string) : grows (write_string s).
Proof.
  intros out. unfold write_string. cbn [String.length].
  pose proof (write_chars_grows s out). lia.
Qed.

Lemma write_value_primitive_grows (v : json) :
  primitive v -> grows (write_value v).
Proof.
  intros Hv out. destruct v as [|[]|m e|s|l|d]; try contradiction;
    cbn [write_value].
  - rewrite length_append. cbn. lia.
  - rewrite length_append. cbn. lia.
  - rewrite length_append. cbn. lia.
  - unfold write_number. destruct (str_of_int_head m) as (c & s & -> & _).
    destruct (e =? 0)%Z; rewrite length_append; cbn [String.length];
      rewrite ?length_append; lia.
  - apply write_string_grows.
Qed.

Lemma write_member_length (k : string) (w : string -> string) (out : string) :
  (4 + String.length (w out) <= String.length (write_member k w out))%nat.
Proof.
  unfold write_member, write_string. cbn [String.length].
  pose proof (write_chars_grows k (String ":" (String " " (w out)))) as H.
  cbn [String.length] in H. lia.
Qed.

Lemma write_sep_length (ws : list (string -> string)) (out : string) :
  Forall grows ws ->
  (length ws + String.length out <= String.length (write_sep ws out))%nat.
Proof.
  induction ws as [|w ws IH]; intros Hall; [cbn; lia|].
  apply Forall_cons in Hall. destruct Hall as [Hw Hall].
  destruct ws as [|w' ws].
  - cbn [write_sep length]. specialize (Hw out). lia.
  - change (write_sep (w :: w' :: ws) out)
      with (w (String "," (String " " (write_sep (w' :: ws) out)))).
    specialize (IH Hall).
    specialize (Hw (String "," (String " " (write_sep (w' :: ws) out)))).
    cbn [String.length length] in *. lia.
Qed.

Lemma entry_writers_grow (entries : list (string * json)) :
  Forall (λ kv, primitive kv.2) entries -> Forall grows (entry_writers entries).
Proof.
  intros Hprim. unfold entry_writers. apply Forall_fmap.
  eapply Forall_impl; [exact Hprim|]. intros [k v] Hv out. cbn [fst snd] in *.
  pose proof (write_member_length k (write_value v) out).
  pose proof (write_value_primitive_grows v Hv out). lia.
Qed.

Lemma write_decision_length (d : Decision) (entries : list (string * json))
    (out : string) :
  (λ kw, write_member kw.1 kw.2) <$> map_to_list (write_value <$> arguments d)
    = entry_writers entries ->
  Forall (λ kv, primitive kv.2) entries ->
  (length entries + 4 <= String.length (write_decision d out))%nat.
Proof.
  intros Hw Hprim. unfold write_decision. cbn [String.length].
  match goal with |- context [write_member "name" ?w ?o] =>
    pose proof (write_member_length "name" w o) as H1;
    pose proof (write_string_grows (toolName d) o) as H2 end.
  cbn [String.length] in H2.
  match goal with |- context [write_member "arguments" ?w ?o] =>
    pose proof (write_member_length "arguments" w o) as H3 end.
  assert (Hobj : String.length (write_value (JObj (arguments d)) (String "}" out))
                 = S (String.length (write_sep (entry_writers entries)
                                       (String "}" (String "}" out))))).
  { cbn [write_value]. rewrite Hw. reflexivity. }
  pose proof (write_sep_length (entry_writers entries)
                (String "}" (String "}" out)) (entry_writers_grow _ Hprim)) as H4.
  cbn [String.length] in H4. unfold entry_writers in H4 at 1.
  rewrite length_fmap in H4. lia.
Qed.

Lemma write_char_continues (c : ascii) : continues (write_char c).
Proof. intros a b. ascii_cases c; reflexivity. Qed.

Lemma write_chars_continues (s : string) : continues (write_chars s).
Proof.
  intros a b. induction s as [|c s IH]; cbn [write_chars].
  - reflexivity.
  - rewrite write_char_continues, IH. reflexivity.
Qed.

Lemma write_string_continues (s : string) : continues (write_string s).
Proof.
  intros a b. unfold write_string. rewrite append_cons.
  rewrite write_chars_continues. reflexivity.
Qed.

Lemma write_value_primitive_continues (v : json) :
  primitive v -> continues (write_value v).
Proof.
  intros Hv a b. destruct v as [|[]|m e|s|l|d]; try contradiction;
    cbn [write_value]; try apply append_assoc.
  - unfold write_number. destruct (e =? 0)%Z; [apply append_assoc|].
    rewrite !append_assoc, append_cons, append_assoc. reflexivity.
  - apply write_string_continues.
Qed.

Lemma write_member_continues (k : string) (w : string -> string) :
  continues w -> continues (write_member k w).
Proof.
  intros Hw a b. unfold write_member. rewrite write_string_continues.
  rewrite !append_cons, Hw. reflexivity.
Qed.

Lemma write_sep_continues (ws : list (string -> string)) :
  Forall continues ws -> continues (write_sep ws).
Proof.
  induction ws as [|w ws IH]; intros Hall a b; [reflexivity|].
  apply Forall_cons in Hall. destruct Hall as [Hw Hall].
  destruct ws as [|w' ws].
  - cbn [write_sep]. apply Hw.
  - change (write_sep (w :: w' :: ws) ?o)
      with (w (String "," (String " " (write_sep (w' :: ws) o)))).
    rewrite Hw, !append_cons, (IH Hall). reflexivity.
Qed.

Lemma entry_writers_continue (entries : list (string * json)) :
  Forall (λ kv, primitive kv.2) entries ->
  Forall continues (entry_writers entries).
Proof.
  intros Hprim. unfold entry_writers. apply Forall_fmap.
  eapply Forall_impl; [exact Hprim|]. intros [k v] Hv. cbn [fst snd] in *.
  apply write_member_continues, write_value_primitive_continues, Hv.
Qed.

Lemma write_decision_continues (d : Decision) (entries : list (string * json)) :
  (λ kw, write_member kw.1 kw.2) <$> map_to_list (write_value <$> arguments d)
    = entry_writers entries ->
  Forall (λ kv, primitive kv.2) entries ->
  continues (write_decision d).
Proof.
  intros Hw Hprim a b. unfold write_decision.
  rewrite append_cons. f_equal.
  rewrite (write_member_continues _ _ (write_string_continues _)).
  rewrite !append_cons. do 3 f_equal.
  apply write_member_continues. clear a b. intros a b.
  cbn [write_value]. rewrite Hw, append_cons.
  rewrite (write_sep_continues _ (entry_writers_continue _ Hprim)).
  rewrite append_cons. reflexivity.
Qed.

(** *** Fuel *)

Lemma value_step_mono members members' elements elements' (s : string)
    (r : json * string) :
  (forall s acc r, members s acc = Some r -> members' s acc = Some r) ->
  (forall s r, elements s = Some r -> elements' s = Some r) ->
  value_step members elements s = Some r ->
  value_step members' elements' s = Some r.
Proof.
  intros Hm He. unfold value_step.
  destruct (skip_ws s) as [|c rest]; [discriminate|].
  destruct (Ascii.eqb c "{").
  - destruct (skip_ws rest) as [|c' rest']; [discriminate|].
    destruct (Ascii.eqb c' "}"); [auto|].
    destruct (members rest ∅) as [[m rest'']|] eqn:E; [|discriminate].
    rewrite (Hm _ _ _ E). auto.
  - destruct (Ascii.eqb c "[").
    + destruct (skip_ws rest) as [|c' rest']; [discriminate|].
      destruct (Ascii.eqb c' "]"); [auto|].
      destruct (elements rest) as [[l rest'']|] eqn:E; [|discriminate].
      rewrite (He _ _ E). auto.
    + auto.
Qed.

Lemma members_step_mono read_value read_value' members members' (s : string)
    (acc : gmap string json) (r : gmap string json * string) :
  (forall s r, read_value s = Some r -> read_value' s = Some r) ->
  (forall s acc r, members s acc = Some r -> members' s acc = Some r) ->
  members_step read_value members s acc = Some r ->
  members_step read_value' members' s acc = Some r.
Proof.
  intros Hv Hm. unfold members_step.
  destruct (skip_ws s) as [|q rest]; [discriminate|].
  destruct (Ascii.eqb q dquote); [|discriminate].
  destruct (parse_chars rest) as [[k rest1]|]; [|discriminate].
  destruct (skip_ws rest1) as [|colon rest2]; [discriminate|].
  destruct (Ascii.eqb colon ":"); [|discriminate].
  destruct (read_value rest2) as [[v rest3]|] eqn:E; [|discriminate].
  rewrite (Hv _ _ E).
  destruct (skip_ws rest3) as [|c rest4]; [discriminate|].
  destruct (Ascii.eqb c ","); [apply Hm|]. auto.
Qed.

Lemma elements_step_mono read_value read_value' elements elements' (s : string)
    (r : list json * string) :
  (forall s r, read_value s = Some r -> read_value' s = Some r) ->
  (forall s r, elements s = Some r -> elements' s = Some r) ->
  elements_step read_value elements s = Some r ->
  elements_step read_value' elements' s = Some r.
Proof.
  intros Hv He. unfold elements_step.
  destruct (read_value s) as [[v rest]|] eqn:E; [|discriminate].
  rewrite (Hv _ _ E).
  destruct (skip_ws rest) as [|c rest']; [discriminate|].
  destruct (Ascii.eqb c ","); [|auto].
  destruct (elements rest') as [[l rest'']|] eqn:E'; [|discriminate].
  rewrite (He _ _ E'). auto.
Qed.

(** What the reader reads with some fuel it reads with more. *)
Lemma parse_fuel_S (fuel : nat) :
  (forall s r, parse_value fuel s = Some r -> parse_value (S fuel) s = Some r) /\
  (forall s acc r, parse_members fuel s acc = Some r ->
                   parse_members (S fuel) s acc = Some r) /\
  (forall s r, parse_elements fuel s = Some r ->
               parse_elements (S fuel) s = Some r).
Proof.
  induction fuel as [|fuel (IHv & IHm & IHe)].
  - repeat split; intros; discriminate.
  - split; [|split].
    + intros s r.
      change (parse_value (S fuel) s)
        with (value_step (parse_members fuel) (parse_elements fuel) s).
      change (parse_value (S (S fuel)) s)
        with (value_step (parse_members (S fuel)) (parse_elements (S fuel)) s).
      apply value_step_mono; assumption.
    + intros s acc r.
      change (parse_members (S fuel) s acc)
        with (members_step (parse_value fuel) (parse_members fuel) s acc).
      change (parse_members (S (S fuel)) s acc)
        with (members_step (parse_value (S fuel)) (parse_members (S fuel)) s acc).
      apply members_step_mono; assumption.
    + intros s r.
      change (parse_elements (S fuel) s)
        with (elements_step (parse_value fuel) (parse_elements fuel) s).
      change (parse_elements (S (S fuel)) s)
        with (elements_step (parse_value (S fuel)) (parse_elements (S fuel)) s).
      apply elements_step_mono; assumption.
Qed.

Lemma parse_value_mono (fuel fuel' : nat) (s : string) (r : json * string) :
  (fuel <= fuel')%nat ->
  parse_value fuel s = Some r -> parse_value fuel' s = Some r.
Proof.
  intros Hle H. induction Hle as [|fuel' _ IH]; [exact H|].
  apply (proj1 (parse_fuel_S fuel')), IH.
Qed.

(** *** Prose, fences and white space *)

















(** *** The parser on written decisions *)

Lemma decision_entries (d : Decision) :
  primitive_arguments d ->
  exists entries : list (string * json),
    (λ kw, write_member kw.1 kw.2) <$> map_to_list (write_value <$> arguments d)
      = entry_writers entries /\
    insert_entries ∅ entries = arguments d /\
    Forall (λ kv, primitive kv.2) entries.
Proof.
  intros Hprim. destruct (written_entries (arguments d)) as (entries & Hw & Hd & He).
  exists entries. split; [exact Hw|]. split; [exact Hd|].
  apply Forall_forall. intros [k v] Hin. exact (Hprim k v (He k v Hin)).
Qed.

Lemma parse_of_object (raw n : string) (obj a : gmap string json) :
  extract_object raw = Some obj ->
  obj !! "name" = Some (JStr n) ->
  obj !! "arguments" = Some (JObj a) ->
  parse raw = inr {| toolName := n; arguments := a |}.
Proof. intros H Hn Ha. unfold parse. rewrite H, Hn, Ha. reflexivity. Qed.

(** The serialization of a decision is a JSON text of its object. *)
Lemma stringify_json_text (d : Decision) :
  primitive_arguments d -> json_text (stringify d) (object_of d).
Proof.
  intros Hprim rest.
  destruct (decision_entries d Hprim) as (entries & Hw & Hd & Hp).
  unfold stringify at 2.
  rewrite (write_decision_continues d entries Hw Hp), append_nil_l.
  apply (parse_value_decision d entries _ rest Hw Hd Hp).
  pose proof (write_decision_length d entries "" Hw Hp) as Hlen.
  fold (stringify d) in Hlen. lia.
Qed.

(** A JSON text of an object, read with the fuel of a text it is part of. *)
Lemma json_text_reads (payload rest : string) (obj : gmap string json)
    (fuel : nat) :
  json_text payload obj ->
  (String.length payload < fuel)%nat ->
  parse_value fuel (payload +:+ rest) = Some (JObj obj, rest).
Proof.
  intros Htext Hfuel.
  apply (parse_value_mono (S (String.length payload))); [lia | apply Htext].
Qed.

(** C6. Parsing the JSON serialization of a decision whose arguments are
    primitive values (null, a boolean, a number or a string) gives the
    decision back. *)
Theorem parse_stringify (d : Decision) :
  primitive_arguments d -> parse (stringify d) = inr d.
Proof.
  intros Hprim.
  replace d with {| toolName := toolName d; arguments := arguments d |} at 2
    by (destruct d; reflexivity).
  apply (parse_of_object _ _ (object_of d)).
  - unfold extract_object, whole_object.
    rewrite <- (append_nil_r (stringify d)) at 2.
    rewrite (json_text_reads _ "" _ _ (stringify_json_text d Hprim)) by lia.
    reflexivity.
  - unfold object_of. rewrite lookup_insert_ne by discriminate.
    apply lookup_insert_eq.
  - apply lookup_insert_eq.
Qed.

Lemma parse_stringify_witness :
  parse (stringify {| toolName := "negative_comment";
                      arguments := <["score" := JNum 95 (-1)]>
                                     {["game" := JStr "Zelda"]} |})
  = inr {| toolName := "negative_comment";
           arguments := <["score" := JNum 95 (-1)]>
                          {["game" := JStr "Zelda"]} |}.
Proof.
  apply (parse_stringify {| toolName := "negative_comment";
                            arguments := <["score" := JNum 95 (-1)]>
                                           {["game" := JStr "Zelda"]} |}).
  intros k v H. cbn [arguments] in H.
  apply lookup_insert_Some in H. destruct H as [[_ <-]|[_ H]].
  - split; [lia|]. intros _. discriminate.
  - apply lookup_singleton_Some in H. destruct H as [_ <-]. exact I.
Defined.





(** Without the fence in front of the object the same text parses to the
    decision that the prose quotes: the fence is what makes the parser pass
    over it. *)
Lemma fence_decides :
  parse (fenced_reply_prose +:+ ("json" +:+ newline)
         +:+ fenced_reply_payload +:+ fenced_reply_suffix)
  = inr {| toolName := "positive_comment"; arguments := ∅ |} /\
  parse (fenced_reply_prose +:+ fenced_reply_payload)
  = inr {| toolName := "positive_comment"; arguments := ∅ |}.
Proof. split; vm_compute; reflexivity. Qed.

(** The parsed decision of the fenced example, handed to the dispatch step,
    gives the answer the notebook records for DotA2. *)
Lemma scenario_D_dispatch :
  parse scenario_D_raw = inr scenario_D_decision /\
  match model_output_of scenario_D_decision with
  | Some model_output =>
      outcome (invoke_lambda (tool_chain tools) model_output)
      = Ok (PStr "DotA2 seems not better than Genshin Impact...")
  | None => False
  end.
Proof. split; vm_compute; reflexivity. Qed.

(** * Further properties of the notebook's code *)

(** ** Chains *)

Lemma bind_assoc {A B C} (m : M A) (f : A -> M B) (g : B -> M C) :
  (do y <- (do x <- m; f x); g y) = (do x <- m; do y <- f x; g y).
Proof.
  destruct m as [log [a|e]]; [|reflexivity].
  unfold bind. destruct (f a) as [log1 [b|e]]; [|reflexivity].
  destruct (g b) as [log2 r]. rewrite app_assoc. reflexivity.
Qed.

(** X1. Piping is associative: [(a | b) | c] and [a | (b | c)] make the
    same calls and give the same outcome on every input. *)
Theorem pipe_assoc (a b c : runnable) (input : value) :
  invoke_runnable (RPipe (RPipe a b) c) input
  = invoke_runnable (RPipe a (RPipe b c)) input.
Proof. cbn [invoke_runnable]. apply bind_assoc. Qed.

(** ** What a tool invocation can log *)

Lemma run_func_calls (t : tool) (pos : list value) (kw : gmap string value) :
  calls (run_func t pos kw) = [] \/
  exists env, calls (run_func t pos kw) = [Call (name t) env].
Proof.
  unfold run_func. destruct (bind_args (fname <$> args t) pos kw) as [env|e].
  - right. exists env. rewrite bind_lift_ok. unfold bind, tell, lift, calls.
    destruct (func t env); reflexivity.
  - left. reflexivity.
Qed.

Lemma run_calls (t : tool) (input : value) :
  calls (run t input) = [] \/
  exists env, calls (run t input) = [Call (name t) env].
Proof.
  unfold run. destruct (parse_input t input) as [[pos kw]|e].
  - rewrite bind_lift_ok. apply run_func_calls.
  - left. reflexivity.
Qed.

Lemma format_output_calls (m : M value) (tool_call_id : value) :
  calls (do out <- m; format_output out tool_call_id) = calls m.
Proof.
  destruct m as [log [out|e]]; [|reflexivity].
  unfold bind, format_output, calls.
  destruct tool_call_id; cbn; apply app_nil_r.
Qed.

Lemma invoke_calls (t : tool) (input : value) :
  calls (invoke t input) = [] \/
  exists env, calls (invoke t input) = [Call (name t) env].
Proof.
  unfold invoke. destruct (is_tool_call input); [|apply run_calls].
  destruct (getitem input "id") as [tool_call_id|e]; [|left; reflexivity].
  rewrite bind_lift_ok.
  destruct (getitem input "args") as [a|e]; [|left; reflexivity].
  rewrite bind_lift_ok.
  destruct (copy a) as [a'|e]; [|left; reflexivity].
  rewrite bind_lift_ok, format_output_calls. apply run_calls.
Qed.

(** ** Malformed model outputs *)

(** X2. A model output that is a dictionary without the key ['name'] makes
    the dispatch raise [KeyError('name')], whatever else it holds, and no
    tool function runs. *)
Theorem dispatch_missing_name (tools : list tool) (d : gmap string value) :
  d !! "name" = None ->
  invoke_lambda (tool_chain tools) (PDict d)
  = ([], Raise (KeyError (PStr "name"))).
Proof.
  intros H. unfold invoke_lambda, tool_chain, getitem. rewrite H. reflexivity.
Qed.

Lemma dispatch_missing_name_witness :
  invoke_lambda (tool_chain tools)
    (PDict {["arguments" := PDict {["game" := PStr "Zelda"]}]})
  = ([], Raise (KeyError (PStr "name"))).
Proof. apply dispatch_missing_name. reflexivity. Defined.

(** X3. A model output that names a registered tool but has no key
    ['arguments'] makes the dispatch raise [KeyError('arguments')]: the tool
    is resolved, but its function does not run. *)
Theorem dispatch_missing_arguments (tools : list tool)
    (d : gmap string value) (n : string) (t : tool) :
  d !! "name" = Some (PStr n) ->
  tool_map_of tools !! n = Some t ->
  d !! "arguments" = None ->
  tool_chain tools (PDict d) = Ok (single_tool_chain t) /\
  invoke_lambda (tool_chain tools) (PDict d)
  = ([], Raise (KeyError (PStr "arguments"))).
Proof.
  intros Hname Hlook Hargs.
  assert (Hchain : tool_chain tools (PDict d) = Ok (single_tool_chain t)).
  { unfold tool_chain, getitem, tool_map_getitem. rewrite Hname, Hlook.
    reflexivity. }
  split; [exact Hchain|].
  unfold invoke_lambda. rewrite Hchain, bind_lift_ok.
  unfold single_tool_chain. cbn [invoke_runnable getitem]. rewrite Hargs.
  reflexivity.
Qed.

Lemma dispatch_missing_arguments_witness :
  tool_chain tools (PDict {["name" := PStr "positive_comment"]})
    = Ok (single_tool_chain positive_comment) /\
  invoke_lambda (tool_chain tools) (PDict {["name" := PStr "positive_comment"]})
  = ([], Raise (KeyError (PStr "arguments"))).
Proof.
  apply (dispatch_missing_arguments tools _ "positive_comment"); reflexivity.
Defined.

(** X4. A model output that is no dictionary (a list, a string, a number,
    a boolean or [None]) makes the dispatch raise a [TypeError], and no
    tool function runs. *)
Theorem dispatch_not_a_dict (tools : list tool) (model_output : value) :
  (forall d, model_output <> PDict d) ->
  calls (invoke_lambda (tool_chain tools) model_output) = [] /\
  exists msg,
    outcome (invoke_lambda (tool_chain tools) model_output)
    = Raise (TypeError msg).
Proof.
  intros H. destruct model_output as [| b | z | s | l | d];
    try (split; [reflexivity | eexists; reflexivity]).
  exfalso. exact (H d eq_refl).
Qed.

Lemma dispatch_not_a_dict_witness :
  calls (invoke_lambda (tool_chain tools) (PList [PStr "negative_comment"])) = [] /\
  exists msg,
    outcome (invoke_lambda (tool_chain tools) (PList [PStr "negative_comment"]))
    = Raise (TypeError msg).
Proof. apply dispatch_not_a_dict. intros d. discriminate. Defined.

(** X5. When the value under ['name'] is not a string, the dispatch raises
    and no tool function runs: a list or a dictionary is unhashable and
    gives [TypeError]; any other value is hashable but no key of the tool
    map, and gives [KeyError] carrying that value. *)
Theorem dispatch_name_not_a_string (tools : list tool)
    (d : gmap string value) (v : value) :
  d !! "name" = Some v ->
  (forall s, v <> PStr s) ->
  calls (invoke_lambda (tool_chain tools) (PDict d)) = [] /\
  outcome (invoke_lambda (tool_chain tools) (PDict d))
  = Raise match v with
          | PList _ => TypeError "unhashable type: 'list'"
          | PDict _ => TypeError "unhashable type: 'dict'"
          | _ => KeyError v
          end.
Proof.
  intros Hname Hv. unfold invoke_lambda, tool_chain, getitem. rewrite Hname.
  destruct v as [| b | z | s | l | d']; cbn [tool_map_getitem];
    try (split; reflexivity).
  exfalso. exact (Hv s eq_refl).
Qed.

Lemma dispatch_name_not_a_string_witness :
  (calls (invoke_lambda (tool_chain tools) (PDict {["name" := PInt 1]})) = [] /\
   outcome (invoke_lambda (tool_chain tools) (PDict {["name" := PInt 1]}))
   = Raise (KeyError (PInt 1))) /\
  (calls (invoke_lambda (tool_chain tools)
            (PDict {["name" := PList [PStr "negative_comment"]]})) = [] /\
   outcome (invoke_lambda (tool_chain tools)
              (PDict {["name" := PList [PStr "negative_comment"]]}))
   = Raise (TypeError "unhashable type: 'list'")).
Proof.
  split.
  - apply (dispatch_name_not_a_string tools _ (PInt 1)).
    + reflexivity.
    + intros s. discriminate.
  - apply (dispatch_name_not_a_string tools _ (PList [PStr "negative_comment"])).
    + reflexivity.
    + intros s. discriminate.
Defined.

(** ** What the dispatch does when it succeeds *)

(** X6. The dispatch returns a result only through a tool of the list: if
    it returns [v], the model output names a tool [t] of [tools], carries
    arguments, and [v] with the logged calls is what invoking [t] on those
    arguments gives. *)
Theorem dispatch_success_inversion (tools : list tool) (model_output v : value)
    (log : list call) :
  invoke_lambda (tool_chain tools) model_output = (log, Ok v) ->
  exists (t : tool) (a : value),
    t ∈ tools /\
    getitem model_output "name" = Ok (PStr (name t)) /\
    tool_map_of tools !! name t = Some t /\
    getitem model_output "arguments" = Ok a /\
    invoke t a = (log, Ok v).
Proof.
  unfold invoke_lambda, tool_chain.
  destruct (getitem model_output "name") as [nm|e] eqn:Hname; [|discriminate].
  unfold tool_map_getitem.
  destruct nm as [| b | z | n | l | d]; try discriminate.
  destruct (tool_map_of tools !! n) as [t|] eqn:Hlook; [|discriminate].
  rewrite bind_lift_ok. cbn [invoke_runnable].
  destruct (getitem model_output "arguments") as [a|e] eqn:Hargs; [|discriminate].
  rewrite bind_lift_ok. intros Hinv.
  destruct (tool_map_of_registered _ _ _ Hlook) as [Hin Hn]. subst n.
  exists t, a. repeat split; assumption.
Qed.

Lemma dispatch_success_inversion_witness :
  exists (t : tool) (a : value),
    t ∈ tools /\
    getitem (decision "negative_comment" (PDict {["game" := PStr "DotA2"]})) "name"
      = Ok (PStr (name t)) /\
    tool_map_of tools !! name t = Some t /\
    getitem (decision "negative_comment" (PDict {["game" := PStr "DotA2"]}))
      "arguments" = Ok a /\
    invoke t a
      = ([Call "negative_comment" {["game" := PStr "DotA2"]}],
         Ok (PStr "DotA2 seems not better than Genshin Impact...")).
Proof.
  apply (dispatch_success_inversion tools). reflexivity.
Defined.

(** X7. The dispatch runs at most one tool function, and only that of a
    tool of the list whose name is the one under ['name']. *)
Theorem dispatch_at_most_one_call (tools : list tool) (model_output : value) :
  calls (invoke_lambda (tool_chain tools) model_output) = [] \/
  exists (t : tool) (env : gmap string value),
    t ∈ tools /\
    getitem model_output "name" = Ok (PStr (name t)) /\
    calls (invoke_lambda (tool_chain tools) model_output) = [Call (name t) env].
Proof.
  unfold invoke_lambda, tool_chain.
  destruct (getitem model_output "name") as [nm|e] eqn:Hname; [|left; reflexivity].
  unfold tool_map_getitem.
  destruct nm as [| b | z | n | l | d]; try (left; reflexivity).
  destruct (tool_map_of tools !! n) as [t|] eqn:Hlook; [|left; reflexivity].
  rewrite bind_lift_ok. cbn [invoke_runnable].
  destruct (getitem model_output "arguments") as [a|e]; [|left; reflexivity].
  rewrite bind_lift_ok.
  destruct (tool_map_of_registered _ _ _ Hlook) as [Hin Hn]. subst n.
  destruct (invoke_calls t a) as [H|[env H]]; [left; exact H|].
  right. exists t, env. repeat split; assumption.
Qed.

(** X8. For a model output that names a registered tool, the chain that
    chooses among the tools behaves as the chain that pipes the arguments
    into that one tool, whether or not the arguments are there. *)
Theorem dispatch_is_single_tool_chain (tools : list tool)
    (model_output : value) (n : string) (t : tool) :
  getitem model_output "name" = Ok (PStr n) ->
  tool_map_of tools !! n = Some t ->
  invoke_lambda (tool_chain tools) model_output
  = invoke_runnable (single_tool_chain t) model_output.
Proof.
  intros Hname Hlook. unfold invoke_lambda, tool_chain, tool_map_getitem.
  rewrite Hname, Hlook, bind_lift_ok. reflexivity.
Qed.

Lemma dispatch_is_single_tool_chain_witness :
  invoke_lambda (tool_chain tools)
    (decision "negative_comment" (PDict {["game" := PStr "Zelda"]}))
  = invoke_runnable (single_tool_chain negative_comment)
      (decision "negative_comment" (PDict {["game" := PStr "Zelda"]})).
Proof.
  apply (dispatch_is_single_tool_chain tools _ "negative_comment"); reflexivity.
Defined.

(** X9. The chain that pipes the arguments into one tool never reads
    ['name']: on dictionaries with the same ['arguments'] entry it makes
    the same calls and gives the same outcome, whatever tool they name. *)
Theorem single_tool_chain_ignores_name (t : tool) (d d' : gmap string value) :
  d !! "arguments" = d' !! "arguments" ->
  invoke_runnable (single_tool_chain t) (PDict d)
  = invoke_runnable (single_tool_chain t) (PDict d').
Proof.
  intros H. unfold single_tool_chain. cbn [invoke_runnable getitem].
  rewrite H. reflexivity.
Qed.

Lemma single_tool_chain_ignores_name_witness :
  invoke_runnable (single_tool_chain negative_comment)
    (decision "positive_comment" (PDict {["game" := PStr "Zelda"]}))
  = invoke_runnable (single_tool_chain negative_comment)
      (PDict {["arguments" := PDict {["game" := PStr "Zelda"]}]}).
Proof.
  apply (single_tool_chain_ignores_name negative_comment). reflexivity.
Defined.

(** ** The passthrough variant *)

Lemma dispatch_reads_two_keys (tools : list tool) (d d' : gmap string value) :
  d !! "name" = d' !! "name" ->
  d !! "arguments" = d' !! "arguments" ->
  invoke_lambda (tool_chain tools) (PDict d)
  = invoke_lambda (tool_chain tools) (PDict d').
Proof.
  intros Hname Hargs. unfold invoke_lambda, tool_chain, getitem.
  rewrite <- Hname.
  destruct (d !! "name") as [nm|]; [|reflexivity].
  destruct (tool_map_getitem (tool_map_of tools) nm) as [t|e]; [|reflexivity].
  rewrite !bind_lift_ok. cbn [invoke_runnable getitem].
  rewrite Hargs. reflexivity.
Qed.

(** X10. [RunnablePassthrough.assign(output=tool_chain)] on a dictionary
    makes the calls of the plain dispatch; when the dispatch raises it
    raises the same exception, and when the dispatch returns [v] it returns
    the input with ['output'] set to [v], every other key being kept with
    its value. *)
Theorem assign_output_passthrough (tools : list tool) (d : gmap string value)
    (log : list call) (r : result value) :
  invoke_lambda (tool_chain tools) (PDict d) = (log, r) ->
  assign_output (tool_chain tools) (PDict d)
    = (log, match r with
            | Ok v => Ok (PDict (<["output" := v]> d))
            | Raise e => Raise e
            end) /\
  forall v d', r = Ok v ->
    outcome (assign_output (tool_chain tools) (PDict d)) = Ok (PDict d') ->
    d' !! "output" = Some v /\
    forall k, k <> "output" -> d' !! k = d !! k.
Proof.
  intros H.
  assert (Ha : assign_output (tool_chain tools) (PDict d)
               = (log, match r with
                       | Ok v => Ok (PDict (<["output" := v]> d))
                       | Raise e => Raise e
                       end)).
  { unfold assign_output. rewrite H. destruct r as [v|e]; [|reflexivity].
    unfold bind, ret. rewrite app_nil_r. reflexivity. }
  split; [exact Ha|].
  intros v d' -> Hd'. rewrite Ha in Hd'. cbn [outcome snd] in Hd'.
  injection Hd' as <-. split.
  - apply lookup_insert_eq.
  - intros k Hk. apply lookup_insert_ne. congruence.
Qed.

Lemma assign_output_passthrough_witness :
  let d : gmap string value :=
    <["name" := PStr "positive_comment"]>
      (<["arguments" := PDict {["game" := PStr "Zelda"]}]> ∅) in
  assign_output (tool_chain tools) (PDict d)
    = ([Call "positive_comment" {["game" := PStr "Zelda"]}],
       Ok (PDict (<["output" := PStr "Zelda is the best game in the world !!!"]> d))) /\
  forall v d',
    Ok (PStr "Zelda is the best game in the world !!!") = Ok v ->
    outcome (assign_output (tool_chain tools) (PDict d)) = Ok (PDict d') ->
    d' !! "output" = Some v /\
    forall k, k <> "output" -> d' !! k = d !! k.
Proof.
  intros d.
  apply (assign_output_passthrough tools d
           [Call "positive_comment" {["game" := PStr "Zelda"]}]
           (Ok (PStr "Zelda is the best game in the world !!!"))).
  reflexivity.
Defined.

(** X11. An ['output'] entry that the model output already has is
    overwritten and has no influence: the passthrough variant gives the
    same calls and the same result with and without it. *)
Theorem assign_output_overwrites (tools : list tool) (d : gmap string value)
    (x : value) :
  assign_output (tool_chain tools) (PDict (<["output" := x]> d))
  = assign_output (tool_chain tools) (PDict (delete "output" d)).
Proof.
  unfold assign_output.
  rewrite (dispatch_reads_two_keys tools (<["output" := x]> d) (delete "output" d)).
  - destruct (invoke_lambda (tool_chain tools) (PDict (delete "output" d)))
      as [log [v|e]]; [|reflexivity].
    unfold bind, ret. rewrite insert_insert_eq, insert_delete_eq. reflexivity.
  - rewrite lookup_insert_ne by discriminate.
    rewrite lookup_delete_ne by discriminate. reflexivity.
  - rewrite lookup_insert_ne by discriminate.
    rewrite lookup_delete_ne by discriminate. reflexivity.
Qed.

(** X12. The passthrough variant refuses an input that is no dictionary
    with an [AssertionError] before the dispatch is tried, while the plain
    dispatch step raises a [TypeError] on the same input. *)
Theorem assign_output_not_a_dict (tools : list tool) (model_output : value) :
  (forall d, model_output <> PDict d) ->
  (exists msg,
     assign_output (tool_chain tools) model_output
     = ([], Raise (AssertionError msg))) /\
  (exists msg,
     invoke_lambda (tool_chain tools) model_output = ([], Raise (TypeError msg))).
Proof.
  intros H. destruct model_output as [| b | z | s | l | d];
    try (split; eexists; reflexivity).
  exfalso. exact (H d eq_refl).
Qed.

Lemma assign_output_not_a_dict_witness :
  (exists msg,
     assign_output (tool_chain tools) (PStr "negative_comment")
     = ([], Raise (AssertionError msg))) /\
  (exists msg,
     invoke_lambda (tool_chain tools) (PStr "negative_comment")
     = ([], Raise (TypeError msg))).
Proof. apply assign_output_not_a_dict. intros d. discriminate. Defined.

(** ** The tool map *)

Lemma foldl_register_last (l : list tool) (m : gmap string tool) (t : tool) :
  name t ∉ name <$> l ->
  foldl register (register m t) l !! name t = Some t.
Proof.
  intros Hn. rewrite (foldl_register_notin _ _ _ Hn). unfold register.
  apply lookup_insert_eq.
Qed.

(** X13. A name resolves to the last tool of the list that carries it:
    tools of the same name earlier in the list are shadowed, the tools that
    follow do not matter as long as they have other names. *)
Theorem tool_map_last_wins (before after : list tool) (t : tool) :
  name t ∉ name <$> after ->
  tool_map_of (before ++ t :: after) !! name t = Some t.
Proof.
  intros Hn. unfold tool_map_of. rewrite foldl_app. cbn [foldl].
  apply foldl_register_last. exact Hn.
Qed.

Lemma tool_map_last_wins_witness :
  tool_map_of ([negative_comment] ++ renamed_positive_comment :: [positive_comment])
    !! name renamed_positive_comment = Some renamed_positive_comment.
Proof.
  apply (tool_map_last_wins [negative_comment] [positive_comment]
           renamed_positive_comment).
  apply (bool_decide_unpack _). vm_compute. exact I.
Defined.

(** X14. When the names of the tools are pairwise distinct, every tool of
    the list is found under its own name. *)
Theorem tool_map_distinct_names (tools : list tool) (t : tool) :
  NoDup (name <$> tools) ->
  t ∈ tools ->
  tool_map_of tools !! name t = Some t.
Proof.
  intros Hnd Hin. apply list_elem_of_split in Hin.
  destruct Hin as (before & after & ->).
  unfold tool_map_of. rewrite foldl_app. cbn [foldl].
  apply foldl_register_last.
  rewrite fmap_app, fmap_cons in Hnd.
  apply NoDup_app in Hnd. destruct Hnd as (_ & _ & Hnd).
  apply NoDup_cons in Hnd. exact (proj1 Hnd).
Qed.

Lemma tool_map_distinct_names_witness :
  tool_map_of tools !! name positive_comment = Some positive_comment.
Proof.
  apply (tool_map_distinct_names tools positive_comment).
  - apply (bool_decide_unpack _). vm_compute. exact I.
  - apply list_elem_of_further, list_elem_of_here.
Defined.

(** X15. What the tool map holds comes from the list: a name resolves
    exactly when some tool of the list has it, the tool found is a member
    of the list and carries that name, and the map has no more entries
    than the list has tools. *)
Theorem tool_map_sound_and_complete (tools : list tool) (n : string) :
  (n ∈ name <$> tools <-> is_Some (tool_map_of tools !! n)) /\
  (forall t, tool_map_of tools !! n = Some t -> t ∈ tools /\ name t = n) /\
  (size (tool_map_of tools) <= length tools)%nat.
Proof.
  split; [|split].
  - split; [apply tool_map_of_is_Some|].
    intros [t Ht]. destruct (tool_map_of_registered _ _ _ Ht) as [Hin <-].
    apply list_elem_of_fmap. exists t. split; [reflexivity | exact Hin].
  - intros t. apply tool_map_of_registered.
  - induction tools as [|t l IH] using rev_ind; [reflexivity|].
    rewrite tool_map_of_snoc, length_app. unfold register. cbn [length].
    destruct (tool_map_of l !! name t) as [t'|] eqn:Ht.
    + rewrite map_size_insert_Some by (rewrite Ht; eauto). lia.
    + rewrite map_size_insert_None by exact Ht. lia.
Qed.

(** ** The rendering and the system prompt *)

Lemma concat_snoc (sep : string) (l : list string) (x : string) :
  l <> [] ->
  String.concat sep (l ++ [x]) = String.concat sep l +:+ sep +:+ x.
Proof.
  induction l as [|a l IH]; intros Hne; [congruence|].
  destruct l as [|b l].
  - reflexivity.
  - change (String.concat sep ((a :: b :: l) ++ [x]))
      with (a +:+ sep +:+ String.concat sep ((b :: l) ++ [x])).
    rewrite IH by discriminate.
    change (String.concat sep (a :: b :: l))
      with (a +:+ sep +:+ String.concat sep (b :: l)).
    rewrite !append_assoc. reflexivity.
Qed.

(** X16. Rendering a list with one more tool at its end keeps the
    rendering of the list as it was and adds a newline and the line of the
    new tool; this is how the rendering of the two tools extends the one of
    [negative_comment] alone. *)
Theorem render_snoc (tools : list tool) (t : tool) :
  tools <> [] ->
  render_text_description (tools ++ [t])
  = render_text_description tools +:+ newline +:+ tool_line t.
Proof.
  intros Hne. unfold render_text_description. rewrite fmap_app.
  apply concat_snoc. destruct tools; [congruence | discriminate].
Qed.

Lemma render_snoc_witness :
  render_text_description ([negative_comment] ++ [positive_comment])
  = render_text_description [negative_comment] +:+ newline
      +:+ tool_line positive_comment.
Proof. apply (render_snoc [negative_comment]). discriminate. Defined.

Lemma occurs_in_refl (x : string) : occurs_in x x.
Proof.
  exists "", "". rewrite append_nil_l.
  induction x as [|a x IH]; [reflexivity|].
  rewrite append_cons, <- IH. reflexivity.
Qed.

Lemma occurs_in_trans (x y z : string) :
  occurs_in x y -> occurs_in y z -> occurs_in x z.
Proof.
  intros (b1 & a1 & ->) (b2 & a2 & ->).
  exists (b2 +:+ b1), (a1 +:+ a2). rewrite !append_assoc. reflexivity.
Qed.

Lemma occurs_in_append_l (x s pre : string) :
  occurs_in x s -> occurs_in x (pre +:+ s).
Proof.
  intros (b & a & ->). exists (pre +:+ b), a. rewrite append_assoc. reflexivity.
Qed.

Lemma occurs_in_append_r (x s post : string) :
  occurs_in x s -> occurs_in x (s +:+ post).
Proof.
  intros (b & a & ->). exists b, (a +:+ post). rewrite !append_assoc. reflexivity.
Qed.

Lemma occurs_in_concat (sep x : string) (l : list string) :
  x ∈ l -> occurs_in x (String.concat sep l).
Proof.
  induction l as [|a l IH]; intros Hin.
  - apply elem_of_nil in Hin. destruct Hin.
  - apply elem_of_cons in Hin. destruct l as [|b l].
    + destruct Hin as [->|Hin]; [apply occurs_in_refl|].
      apply elem_of_nil in Hin. destruct Hin.
    + change (String.concat sep (a :: b :: l))
        with (a +:+ sep +:+ String.concat sep (b :: l)).
      destruct Hin as [->|Hin].
      * apply occurs_in_append_r, occurs_in_refl.
      * apply occurs_in_append_l, occurs_in_append_l, IH, Hin.
Qed.

(** X17. Every tool of the list is described in the system prompt: its
    line, and with it its name and its description, occurs in the prompt
    built from the rendering of the list. *)
Theorem system_prompt_describes_every_tool (tools : list tool) (t : tool) :
  t ∈ tools ->
  occurs_in (tool_line t) (render_text_description tools) /\
  occurs_in (tool_line t) (system_prompt (render_text_description tools)) /\
  occurs_in (name t) (system_prompt (render_text_description tools)) /\
  occurs_in (description t) (system_prompt (render_text_description tools)).
Proof.
  intros Hin.
  assert (Hr : occurs_in (tool_line t) (render_text_description tools)).
  { unfold render_text_description. apply occurs_in_concat.
    apply list_elem_of_fmap. exists t. split; [reflexivity | exact Hin]. }
  assert (Hp : occurs_in (tool_line t)
                 (system_prompt (render_text_description tools))).
  { unfold system_prompt.
    apply occurs_in_append_l, occurs_in_append_l, occurs_in_append_l.
    apply occurs_in_append_r. exact Hr. }
  split; [exact Hr|]. split; [exact Hp|]. split.
  - apply (occurs_in_trans _ (tool_line t)); [|exact Hp].
    unfold tool_line. apply occurs_in_append_r, occurs_in_refl.
  - apply (occurs_in_trans _ (tool_line t)); [|exact Hp].
    unfold tool_line.
    apply occurs_in_append_l, occurs_in_append_l, occurs_in_append_l.
    apply occurs_in_refl.
Qed.

Lemma system_prompt_describes_every_tool_witness :
  occurs_in (tool_line positive_comment) (render_text_description tools) /\
  occurs_in (tool_line positive_comment)
    (system_prompt (render_text_description tools)) /\
  occurs_in (name positive_comment)
    (system_prompt (render_text_description tools)) /\
  occurs_in (description positive_comment)
    (system_prompt (render_text_description tools)).
Proof.
  apply (system_prompt_describes_every_tool tools positive_comment).
  apply list_elem_of_further, list_elem_of_here.
Defined.

(** ** The two tools *)

(** X18. For every game string, the decision for [negative_comment] is
    answered with the game followed by
    [' seems not better than Genshin Impact...'] and the decision for
    [positive_comment] with the game followed by
    [' is the best game in the world !!!']; each runs exactly the named
    function once, on the game, and the two answers are never the same. *)
Theorem comment_tools_answer (game : string) :
  invoke_lambda (tool_chain tools)
    (decision "negative_comment" (PDict {["game" := PStr game]}))
  = ([Call "negative_comment" {["game" := PStr game]}],
     Ok (PStr (game +:+ " seems not better than Genshin Impact..."))) /\
  invoke_lambda (tool_chain tools)
    (decision "positive_comment" (PDict {["game" := PStr game]}))
  = ([Call "positive_comment" {["game" := PStr game]}],
     Ok (PStr (game +:+ " is the best game in the world !!!"))) /\
  game +:+ " seems not better than Genshin Impact..."
    <> game +:+ " is the best game in the world !!!".
Proof.
  split; [reflexivity|]. split; [reflexivity|].
  intros H. apply String.app_inj in H. discriminate H.
Qed.

(** X19. A tool with a single [str] parameter can be invoked on a bare
    string, as in [negative_comment.invoke('Zelda')]: the function runs
    once with the string bound to the parameter.  The dictionary that gives
    the string under the parameter's name has the same call and the same
    outcome, unless it is the dictionary ['type': 'tool_call'], which is
    read as a tool call and fails for want of an ['id']. *)
Theorem invoke_bare_string (t : tool) (x s : string) :
  args t = [str_field x] ->
  invoke t (PStr s) = ([Call (name t) {[x := PStr s]}], func t {[x := PStr s]}) /\
  ((x = "type" -> s <> "tool_call") ->
     invoke t (PDict {[x := PStr s]}) = invoke t (PStr s)) /\
  (x = "type" -> s = "tool_call" ->
     invoke t (PDict {[x := PStr s]}) = ([], Raise (KeyError (PStr "id")))).
Proof.
  intros Hargs.
  assert (Hv : validate (args t) {[x := PStr s]} = ([], {[x := PStr s]})).
  { rewrite Hargs. apply validate_matches, matches_str_singleton. }
  assert (Hstr : invoke t (PStr s)
                 = ([Call (name t) {[x := PStr s]}], func t {[x := PStr s]})).
  { rewrite invoke_plain by reflexivity.
    unfold run, parse_input. rewrite Hargs. cbn [fname str_field].
    rewrite <- Hargs, Hv, bind_lift_ok. cbn [fst snd]. unfold run_func.
    rewrite Hargs. cbn [fmap list_fmap fname str_field].
    rewrite bind_args_positional by reflexivity.
    cbn [zip_with list_to_map foldr uncurry fst snd].
    rewrite insert_empty, bind_lift_ok. reflexivity. }
  split; [exact Hstr|]. split.
  - intros Hplain. rewrite Hstr. apply invoke_dict_valid; [|exact Hv].
    rewrite lookup_singleton. case_decide as Hx; [|discriminate].
    intros [= Hs]. exact (Hplain Hx Hs).
  - intros -> ->. apply invoke_tool_call_without_id; reflexivity.
Qed.

Lemma invoke_bare_string_witness :
  invoke negative_comment (PStr "Zelda")
    = ([Call (name negative_comment) {["game" := PStr "Zelda"]}],
       func negative_comment {["game" := PStr "Zelda"]}) /\
  (("game" = "type" -> "Zelda" <> "tool_call") ->
     invoke negative_comment (PDict {["game" := PStr "Zelda"]})
     = invoke negative_comment (PStr "Zelda")) /\
  ("game" = "type" -> "Zelda" = "tool_call" ->
     invoke negative_comment (PDict {["game" := PStr "Zelda"]})
     = ([], Raise (KeyError (PStr "id")))).
Proof. apply (invoke_bare_string negative_comment "game" "Zelda"). reflexivity. Defined.
